(** * Relocation recommender: the serverless request handler and the
    header-link highlighter (asset/shimmer.js). *)

From Stdlib Require Import String Ascii List Bool ZArith Lia.
From stdpp Require Import base gmap strings list.

Import ListNotations.
#[local] Set Warnings "-register-all".
Open Scope string_scope.
Open Scope list_scope.

(* ================================================================= *)
(** ** JavaScript values and the builtins the code uses *)
(* ================================================================= *)

(** A JSON-derived JavaScript value.  Numbers are integers (the code
    compares none of them and only tests their truthiness). *)
Inductive jval : Type :=
  | JUndef
  | JNull
  | JBool (b : bool)
  | JNum (n : Z)
  | JStr (s : string)
  | JArr (l : list jval)
  | JObj (kvs : list (string * jval)).

(** Either a value or a thrown exception (TypeError and the like). *)
Inductive result (A : Type) : Type :=
  | Ok (a : A)
  | Throw.
Arguments Ok {A} a.
Arguments Throw {A}.

Definition bind {A B} (m : result A) (k : A -> result B) : result B :=
  match m with Ok a => k a | Throw => Throw end.

Notation "'let*' x := m 'in' k" := (bind m (fun x => k))
  (at level 200, x name, m at level 100, k at level 200).

(** [ToBoolean] *)
Definition truthy (v : jval) : bool :=
  match v with
  | JUndef | JNull => false
  | JBool b => b
  | JNum n => negb (Z.eqb n 0)
  | JStr s => negb (String.eqb s "")
  | JArr _ | JObj _ => true
  end.

(** [a || b] *)
Definition js_or (a b : jval) : jval := if truthy a then a else b.

(** SameValueZero, as used by [Array.prototype.includes]. *)
Definition jeqb (a b : jval) : bool :=
  match a, b with
  | JUndef, JUndef | JNull, JNull => true
  | JBool x, JBool y => Bool.eqb x y
  | JNum x, JNum y => Z.eqb x y
  | JStr x, JStr y => String.eqb x y
  | _, _ => false  (* arrays and objects compare by identity *)
  end.

Definition arr_includes (l : list jval) (x : jval) : bool :=
  existsb (jeqb x) l.

Fixpoint assoc (k : string) (kvs : list (string * jval)) : option jval :=
  match kvs with
  | [] => None
  | (k', v) :: r => if String.eqb k k' then Some v else assoc k r
  end.

(** Property read [v.k] for a non-index key: throws on [null] and
    [undefined]; the primitives and arrays have none of the keys the
    code reads ("answers", "destinations", "choices", ...). *)
Definition get (v : jval) (k : string) : result jval :=
  match v with
  | JUndef | JNull => Throw
  | JObj kvs => Ok (match assoc k kvs with Some x => x | None => JUndef end)
  | _ => Ok JUndef
  end.

(** Property read [v[0]]. *)
Definition get0 (v : jval) : result jval :=
  match v with
  | JUndef | JNull => Throw
  | JArr (x :: _) => Ok x
  | JStr (String c _) => Ok (JStr (String c EmptyString))
  | JObj kvs => Ok (match assoc "0" kvs with Some x => x | None => JUndef end)
  | _ => Ok JUndef
  end.

Definition nullish (v : jval) : bool :=
  match v with JUndef | JNull => true | _ => false end.

(** Optional chaining [v?.k] and [v?.[0]]. *)
Definition oget (v : jval) (k : string) : result jval :=
  if nullish v then Ok JUndef else get v k.
Definition oget0 (v : jval) : result jval :=
  if nullish v then Ok JUndef else get0 v.

(* ----------------------------------------------------------------- *)
(** *** Strings *)

(** [String.prototype.trim] over the ASCII white space characters
    (TAB, LF, VT, FF, CR, SPACE). *)
Definition is_ws (c : ascii) : bool :=
  let n := nat_of_ascii c in
  (Nat.eqb n 32 || ((9 <=? n) && (n <=? 13)))%nat.

Fixpoint trim_start (s : string) : string :=
  match s with
  | EmptyString => EmptyString
  | String c r => if is_ws c then trim_start r else s
  end.

Fixpoint rev_str (s : string) (acc : string) : string :=
  match s with
  | EmptyString => acc
  | String c r => rev_str r (String c acc)
  end.

Definition trim_end (s : string) : string :=
  rev_str (trim_start (rev_str s EmptyString)) EmptyString.

Definition trim (s : string) : string := trim_end (trim_start s).

(** [s.includes(t)] for strings: [t] occurs as a substring of [s]. *)
Fixpoint str_includes (s t : string) : bool :=
  String.prefix t s ||
  match s with
  | EmptyString => false
  | String _ r => str_includes r t
  end.

(** [s.indexOf(c)] for a one-character needle, [None] standing for -1. *)
Fixpoint index_of_char (c : ascii) (s : string) : option nat :=
  match s with
  | EmptyString => None
  | String c' r =>
      if Ascii.eqb c c' then Some 0%nat
      else option_map S (index_of_char c r)
  end.

(** [s.slice(n)] *)
Definition slice_from (n : nat) (s : string) : string :=
  String.substring n (String.length s - n) s.

(* ================================================================= *)
(** ** Credential resolution: [tryReadFileSync] and [getApiKey] *)
(* ================================================================= *)

(** [process.env]: a name maps to its string value or is unset. *)
Definition env_t := string -> option string.
(** [fs.readFileSync(path, 'utf8')]: the content or a thrown error. *)
Definition fs_t := string -> option string.

Definition tryReadFileSync (fs : fs_t) (path : string) : option string :=
  match fs path with
  | Some c => let s := trim c in if String.eqb s "" then None else Some s
  | None => None
  end.

(** [process.env.X && process.env.X.trim()] followed by the return of
    the trimmed value. *)
Definition env_key (env : env_t) (x : string) : option string :=
  match env x with
  | Some v =>
      if String.eqb v "" then None
      else let t := trim v in if String.eqb t "" then None else Some t
  | None => None
  end.

Definition getApiKey (env : env_t) (fs : fs_t) : option string :=
  match env_key env "OPENAI_API_KEY" with Some k => Some k | None =>
  match env_key env "OPEN_AI_KEY" with Some k => Some k | None =>
  match (match env "OPEN_AI_KEY_FILE" with
         | Some p => if String.eqb p "" then None else tryReadFileSync fs p
         | None => None end) with Some k => Some k | None =>
  match tryReadFileSync fs "./OPEN_AI_KEY" with Some k => Some k | None =>
  match tryReadFileSync fs "/run/secrets/OPEN_AI_KEY" with Some k => Some k | None =>
  None end end end end end.

(* ================================================================= *)
(** ** The request handler ([module.exports]) *)
(* ================================================================= *)

(** A response: [res.status(n).send(text)] or [res.status(n).json(v)]. *)
Inductive rbody : Type :=
  | BText (s : string)
  | BJson (v : jval).

Record response : Type := mk_response { status : Z; rbody_of : rbody }.

Record request : Type := mk_request {
  method : string;
  (** [req.body] as pre-parsed by the platform ([JUndef] when it is not) *)
  req_body : jval;
  (** the raw request stream: [Some d] when it ends after delivering [d],
      [None] when it emits ['error'] *)
  req_stream : option string }.

(** The request sent by [fetch] to the completion endpoint.  The two
    prompt messages are fixed texts except for the serialized answers. *)
Record fetch_request : Type := mk_fetch_request {
  f_authorization : string;
  f_model : string;
  f_temperature_centi : Z;
  f_max_tokens : Z;
  f_answers_json : string }.

(** What [await fetch(...)] and the later body reads give: a thrown
    transport error, or a response with its [ok] flag, the result of
    [resp.text()] and the result of [resp.json()] ([None] = the read
    throws). *)
Inductive fetch_outcome : Type :=
  | FetchThrows
  | FetchResp (ok : bool) (text : option string) (json : option jval).

Record world : Type := mk_world {
  env : env_t;
  fs : fs_t;
  upstream : fetch_request -> fetch_outcome }.

(* ----------------------------------------------------------------- *)
(** *** The deterministic fallback (no credential) *)

(** [relocation.includes('work')]: substring search on strings, element
    search on arrays, a TypeError on any other value. *)
Definition js_includes (v : jval) (t : string) : result bool :=
  match v with
  | JStr s => Ok (str_includes s t)
  | JArr l => Ok (arr_includes l (JStr t))
  | _ => Throw
  end.

Definition city (name reason : string) : jval :=
  JObj [("name", JStr name); ("reason", JStr reason)].

Definition fallback_obj (pick : string) : jval :=
  JObj [("country", JStr pick);
        ("score", JNum 75);
        ("reasons", JArr [
           JStr ("Based on your selections, " ++ pick ++ " aligns best with your priorities.");
           JStr "Good balance of lifestyle, services, and accessibility for your needs."]);
        ("cities", JArr [
           city (if String.eqb pick "Costa Rica" then "San José"
                 else if String.eqb pick "Panama" then "Panama City" else "Belize City")
                "Main hub with services";
           city (if String.eqb pick "Costa Rica" then "Guanacaste"
                 else if String.eqb pick "Panama" then "Boquete" else "San Pedro")
                "Popular expat/retirement spot";
           city (if String.eqb pick "Costa Rica" then "La Fortuna"
                 else if String.eqb pick "Panama" then "David" else "Caye Caulker")
                "Leisure and nature options"])].

(** [Array.isArray(d) ? d : (d ? [d] : [])] *)
Definition norm_dests (d : jval) : list jval :=
  match d with
  | JArr l => l
  | _ => if truthy d then [d] else []
  end.

(** The pick chain, [relocation] being [answers.relocationType || ''].  *)
Definition fallback_pick (dests : list jval) (relocation : jval) : result string :=
  if arr_includes dests (JStr "panama") then Ok "Panama"
  else if arr_includes dests (JStr "belize") then Ok "Belize"
  else if truthy relocation then
    let* b := js_includes relocation "work" in Ok (if b then "Panama" else "Costa Rica")
  else Ok "Costa Rica".

Definition fallback (answers : jval) : result response :=
  let* d := get answers "destinations" in
  let* r := get answers "relocationType" in
  let* pick := fallback_pick (norm_dests d) (js_or r (JStr "")) in
  Ok (mk_response 200 (BJson (fallback_obj pick))).

(* ----------------------------------------------------------------- *)
(** *** The upstream relay (credential present) *)

Section Handler.

(** [JSON.parse]: the parsed value, or [None] when it throws. *)
Variable json_parse : string -> option jval.
(** [JSON.stringify] of the answers (total on JSON-derived values). *)
Variable json_stringify : jval -> string.
(** [ToString], applied by [JSON.parse] to a non-string argument. *)
Variable js_to_string : jval -> string.

Fixpoint list_index_of (x : jval) (l : list jval) : option nat :=
  match l with
  | [] => None
  | y :: r => if jeqb x y then Some 0%nat else option_map S (list_index_of x r)
  end.

(** The inner [try]: [assistant.indexOf('{')], [slice], [JSON.parse].
    [indexOf] exists on strings and arrays only; on any other value the
    call throws. *)
Definition parse_attempt (assistant : jval) : result jval :=
  match assistant with
  | JStr s =>
      let jsonText := match index_of_char "{"%char s with
                      | Some n => slice_from n s | None => s end in
      match json_parse jsonText with Some p => Ok p | None => Throw end
  | JArr l =>
      let jsonText := match list_index_of (JStr "{") l with
                      | Some n => JArr (skipn n l) | None => JArr l end in
      match json_parse (js_to_string jsonText) with Some p => Ok p | None => Throw end
  | _ => Throw
  end.

Definition respond_assistant (assistant : jval) : response :=
  match parse_attempt assistant with
  | Ok parsed => mk_response 200 (BJson parsed)
  | Throw => mk_response 200 (BJson (JObj [("text", assistant)]))
  end.

(** [j.choices?.[0]?.message?.content] *)
Definition assistant_content (j : jval) : result jval :=
  let* c := get j "choices" in
  let* c0 := oget0 c in
  let* m := oget c0 "message" in
  oget m "content".

Definition server_error : response := mk_response 500 (BText "Server error").

(** The outer [try] block of the credential branch. *)
Definition relay (w : world) (key : string) (answers : jval) : response :=
  let fr := mk_fetch_request ("Bearer " ++ key) "gpt-3.5-turbo" 35 400
              (json_stringify answers) in
  match upstream w fr with
  | FetchThrows => server_error
  | FetchResp ok txt js =>
      if negb ok then
        match txt with
        | Some _ => mk_response 502 (BText "OpenAI API error")
        | None => server_error
        end
      else
        match js with
        | None => server_error
        | Some j =>
            match assistant_content j with
            | Throw => server_error
            | Ok content => respond_assistant (js_or content (JStr ""))
            end
        end
  end.

(* ----------------------------------------------------------------- *)
(** *** The handler *)

(** [Object.keys(v).length] for a truthy value. *)
Definition keys_len (v : jval) : nat :=
  match v with
  | JObj kvs => length kvs
  | JArr l => length l
  | JStr s => String.length s
  | _ => 0
  end.

(** The manual read: accumulate the stream, then
    [JSON.parse(d || '{}')], [{}] on a parse failure or a stream error. *)
Definition read_stream (r : request) : jval :=
  match req_stream r with
  | None => JObj []
  | Some d =>
      match json_parse (if String.eqb d "" then "{}" else d) with
      | Some v => v
      | None => JObj []
      end
  end.

Definition request_body (r : request) : jval :=
  let b := req_body r in
  if negb (truthy b) || Nat.eqb (keys_len b) 0 then read_stream r else b.

(** Everything after the body has been parsed. *)
Definition proceed (w : world) (body : jval) : result response :=
  let* a := get body "answers" in
  let answers := js_or a (JObj []) in
  match getApiKey (env w) (fs w) with
  | None => fallback answers
  | Some key => Ok (relay w key answers)
  end.

Definition handle (w : world) (r : request) : result response :=
  if negb (String.eqb (method r) "POST")
  then Ok (mk_response 405 (BText "Method not allowed"))
  else proceed w (request_body r).

End Handler.

(* ================================================================= *)
(** ** The link highlighter (asset/shimmer.js) *)
(* ================================================================= *)

(** An element: its attributes, its class list ([classList]), and
    whether [a.querySelector('img')] / [a.querySelector('svg')] find a
    descendant. *)
Record elem : Type := mk_elem {
  attrs : list (string * string);
  classes : list string;
  has_img : bool;
  has_svg : bool }.

(** The page: the elements by node id, the result of
    [document.querySelectorAll(sel)] (ids in document order), the
    attributes of [document.body] ([None] when there is no body) and
    [location.pathname]. *)
Record page : Type := mk_page {
  store : gmap nat elem;
  select : string -> list nat;
  body_attrs : option (list (string * string));
  pathname : string }.

Fixpoint get_attr (k : string) (l : list (string * string)) : option string :=
  match l with
  | [] => None
  | (k', v) :: r => if String.eqb k k' then Some v else get_attr k r
  end.

(** [setAttribute]: replace the value of an existing attribute, else add it. *)
Fixpoint set_attr (k v : string) (l : list (string * string)) : list (string * string) :=
  match l with
  | [] => [(k, v)]
  | (k', v') :: r => if String.eqb k k' then (k', v) :: r else (k', v') :: set_attr k v r
  end.

Definition str_mem (x : string) (l : list string) : bool := existsb (String.eqb x) l.

(** [classList.add(c)] and [classList.remove(c)] *)
Definition class_add (c : string) (e : elem) : elem :=
  mk_elem (attrs e) (if str_mem c (classes e) then classes e else classes e ++ [c])
          (has_img e) (has_svg e).
Definition class_remove (c : string) (e : elem) : elem :=
  mk_elem (attrs e) (List.filter (fun x => negb (String.eqb x c)) (classes e))
          (has_img e) (has_svg e).

(** [s.split(c)] *)
Fixpoint split_on (c : ascii) (s : string) : list string :=
  match s with
  | EmptyString => [EmptyString]
  | String c' r =>
      if Ascii.eqb c c' then EmptyString :: split_on c r
      else match split_on c r with
           | [] => [String c' EmptyString]
           | w :: ws => String c' w :: ws
           end
  end.

(** [arr.pop()] on the (never empty) result of [split] *)
Definition pop (l : list string) : string := List.last l EmptyString.

(** [toLowerCase] on ASCII letters *)
Definition lower_char (c : ascii) : ascii :=
  let n := nat_of_ascii c in
  if ((65 <=? n) && (n <=? 90))%nat then ascii_of_nat (n + 32) else c.
Fixpoint to_lower (s : string) : string :=
  match s with
  | EmptyString => EmptyString
  | String c r => String (lower_char c) (to_lower r)
  end.

(** [href.split('/').pop().toLowerCase()] *)
Definition filename_of (href : string) : string := to_lower (pop (split_on "/"%char href)).

(** [(location.pathname.split('/').pop() || 'index.html').toLowerCase()] *)
Definition current_of (p : page) : string :=
  let last := pop (split_on "/"%char (pathname p)) in
  to_lower (if String.eqb last "" then "index.html" else last).

(** The checks made on each anchor [a] found by a selector, in the
    source order: [!a], the logo exclusion, [!href], [!filename].  The
    normalized filename when the anchor is recorded. *)
Definition key_of (st : gmap nat elem) (id : nat) : option string :=
  match st !! id with
  | None => None
  | Some e =>
      if has_img e || has_svg e then None
      else match get_attr "href" (attrs e) with
           | None => None
           | Some href =>
               if String.eqb href "" then None
               else let fn := filename_of href in
                    if String.eqb fn "" then None else Some fn
           end
  end.

(** A [Map] from filename to anchor, in insertion order. *)
Definition amap := list (string * nat).

Fixpoint amap_get (k : string) (m : amap) : option nat :=
  match m with
  | [] => None
  | (k', v) :: r => if String.eqb k k' then Some v else amap_get k r
  end.

Definition amap_has (k : string) (m : amap) : bool :=
  match amap_get k m with Some _ => true | None => false end.

(** [Map.prototype.set]: an existing key keeps its position. *)
Fixpoint amap_set (k : string) (v : nat) (m : amap) : amap :=
  match m with
  | [] => [(k, v)]
  | (k', v') :: r => if String.eqb k k' then (k', v) :: r else (k', v') :: amap_set k v r
  end.

(** Variant A records with [anchors.set(filename, a)]; variant B with
    [if (!anchors.has(filename)) anchors.set(filename, a)]. *)
Definition record_A (fn : string) (id : nat) (m : amap) : amap := amap_set fn id m.
Definition record_B (fn : string) (id : nat) (m : amap) : amap :=
  if amap_has fn m then m else amap_set fn id m.

(** [selectors.forEach(sel => document.querySelectorAll(sel).forEach(...))] *)
Definition scan (p : page) (sels : list string) : list nat := flat_map (select p) sels.

Definition collect (record : string -> nat -> amap -> amap) (st : gmap nat elem)
    (ids : list nat) : amap :=
  fold_left (fun m id => match key_of st id with
                         | Some fn => record fn id m
                         | None => m
                         end) ids [].

(** The apply loop [anchors.forEach((anchor, filename) => ...)]; [on_add]
    is what the variant does to an anchor that gets the class. *)
Fixpoint apply_loop (on_add : elem -> elem) (dests : list string) (cur : string)
    (m : amap) (st : gmap nat elem) : gmap nat elem :=
  match m with
  | [] => st
  | (fn, id) :: r =>
      let st' := match st !! id with
                 | None => st
                 | Some e =>
                     if str_mem fn dests && negb (String.eqb fn cur)
                     then <[id := on_add e]> st
                     else <[id := class_remove "shimmer" e]> st
                 end in
      apply_loop on_add dests cur r st'
  end.

(** *** Variant A: the fixed destination list *)

Definition destinationPages_A : list string := ["costarica.html"; "panama.html"; "belize.html"].

(** The selectors (the attribute value quoted with single quotes, an
    equivalent CSS spelling). *)
Definition selectors_A : list string :=
  ["header .max-w-7xl nav a[href$='.html']";
   "#siteMenu nav a[href$='.html']";
   "header a[href$='.html']:not(#siteMenu a[href$='.html'])"].

(** [anchor.setAttribute('tabindex', anchor.getAttribute('tabindex') || '0')] *)
Definition ensure_tabindex (e : elem) : elem :=
  let t := match get_attr "tabindex" (attrs e) with
           | Some v => if String.eqb v "" then "0" else v
           | None => "0"
           end in
  mk_elem (set_attr "tabindex" t (attrs e)) (classes e) (has_img e) (has_svg e).

Definition on_add_A (e : elem) : elem := ensure_tabindex (class_add "shimmer" e).

Definition collect_A (p : page) : amap := collect record_A (store p) (scan p selectors_A).

Definition run_A (p : page) : gmap nat elem :=
  apply_loop on_add_A destinationPages_A (current_of p) (collect_A p) (store p).

(** *** Variant B: the destination list read from [data-destinations] *)

Definition selectors_B : list string :=
  ["header nav a[href$='.html']"; "#siteMenu nav a[href$='.html']"].

(** [raw.split(',').map(s => (s || '').trim().toLowerCase()).filter(Boolean)] *)
Definition destinationPages_B (p : page) : list string :=
  let raw := match body_attrs p with
             | Some l => match get_attr "data-destinations" l with Some v => v | None => "" end
             | None => ""
             end in
  List.filter (fun s => negb (String.eqb s ""))
         (map (fun s => to_lower (trim s)) (split_on ","%char raw)).

Definition on_add_B (e : elem) : elem := class_add "shimmer" e.

Definition collect_B (p : page) : amap := collect record_B (store p) (scan p selectors_B).

(** The run returns early, touching nothing, when the list is empty.
    (The assignment of [window.__shimmerReapply] does not touch the DOM.) *)
Definition recorded_B (p : page) : amap :=
  match destinationPages_B p with [] => [] | _ => collect_B p end.

Definition run_B (p : page) : gmap nat elem :=
  match destinationPages_B p with
  | [] => store p
  | dests => apply_loop on_add_B dests (current_of p) (collect_B p) (store p)
  end.

(* ================================================================= *)
(** ** Reference definitions following the spec's words *)
(* ================================================================= *)

(** The value is the string [t]. *)
Definition is_str (t : string) (v : jval) : bool :=
  match v with JStr s => String.eqb s t | _ => false end.

(** The relocation type as text ([""] when absent or falsy). *)
Definition reloc_text (r : jval) : string :=
  match r with JStr s => s | _ => "" end.

(** The relocation type is absent, falsy or a string. *)
Definition text_or_falsy (r : jval) : bool :=
  match r with JStr _ => true | _ => negb (truthy r) end.

(** The spec's override chain: default "Costa Rica"; "panama" in the
    list gives "Panama"; else "belize" gives "Belize"; else a relocation
    text containing "work" gives "Panama". *)
Definition spec_pick (dests : list jval) (reloc : string) : string :=
  let pick := "Costa Rica" in
  if existsb (is_str "panama") dests then "Panama"
  else if existsb (is_str "belize") dests then "Belize"
  else if str_includes reloc "work" then "Panama"
  else pick.

(** The spec's fixed table of three cities per country. *)
Definition city_table (country : string) : list string :=
  if String.eqb country "Costa Rica" then ["San José"; "Guanacaste"; "La Fortuna"]
  else if String.eqb country "Panama" then ["Panama City"; "Boquete"; "David"]
  else if String.eqb country "Belize" then ["Belize City"; "San Pedro"; "Caye Caulker"]
  else [].

Definition countries : list string := ["Costa Rica"; "Panama"; "Belize"].

Definition city_name (c : jval) : option string :=
  match c with JObj kvs => match assoc "name" kvs with Some (JStr n) => Some n | _ => None end
          | _ => None end.

(* ================================================================= *)
(** ** Lemmas on the fallback *)
(* ================================================================= *)

Lemma arr_includes_is_str (l : list jval) (t : string) :
  arr_includes l (JStr t) = existsb (is_str t) l.
Proof.
  unfold arr_includes. induction l as [|v l IH]; simpl; [done|].
  rewrite IH. destruct v; simpl; try done.
  by rewrite String.eqb_sym.
Qed.

Lemma str_includes_empty (t : string) : t <> "" -> str_includes "" t = false.
Proof. destruct t; simpl; [done|]. intros _. done. Qed.

Lemma fallback_pick_text (dests : list jval) (r : jval) :
  text_or_falsy r = true ->
  fallback_pick dests (js_or r (JStr "")) = Ok (spec_pick dests (reloc_text r)).
Proof.
  intros Hr. unfold fallback_pick, spec_pick.
  rewrite !arr_includes_is_str.
  destruct (existsb (is_str "panama") dests); [done|].
  destruct (existsb (is_str "belize") dests); [done|].
  unfold js_or.
  destruct r as [| |b|n|s|l|kvs]; simpl in Hr |- *; try done.
  - destruct b; simpl in *; done.
  - destruct (Z.eqb n 0); simpl in *; [done|discriminate].
  - destruct (String.eqb s "") eqn:E; simpl.
    + apply String.eqb_eq in E as ->. done.
    + by rewrite E.
Qed.

Lemma fallback_pick_in (dests : list jval) (r : jval) (pick : string) :
  fallback_pick dests r = Ok pick -> In pick countries.
Proof.
  unfold fallback_pick, countries.
  destruct (arr_includes dests (JStr "panama")); [intros [= <-]; simpl; tauto|].
  destruct (arr_includes dests (JStr "belize")); [intros [= <-]; simpl; tauto|].
  destruct (truthy r); [|intros [= <-]; simpl; tauto].
  destruct (js_includes r "work") as [[|]|]; simpl; intros H; try discriminate;
    injection H as <-; simpl; tauto.
Qed.

Lemma fallback_shape (answers : jval) (resp : response) :
  fallback answers = Ok resp ->
  exists d r pick, get answers "destinations" = Ok d /\
    get answers "relocationType" = Ok r /\
    fallback_pick (norm_dests d) (js_or r (JStr "")) = Ok pick /\
    resp = mk_response 200 (BJson (fallback_obj pick)).
Proof.
  unfold fallback, bind.
  destruct (get answers "destinations") as [d|]; [|discriminate].
  destruct (get answers "relocationType") as [r|]; [|discriminate].
  destruct (fallback_pick _ _) as [pick|] eqn:Hp; [|discriminate].
  intros [= <-]. eauto 7.
Qed.

(* ================================================================= *)
(** ** C1, C3, C10: the no-credential fallback *)
(* ================================================================= *)

(** C1. When no credential resolves and the relocation type is absent,
    falsy or text, the fallback's country is the spec's strict override
    chain on the normalized destination list ("panama" before "belize"
    before "work" in the relocation text, "Costa Rica" otherwise); in
    particular any destination list holding both "belize" and "panama"
    gives "Panama", whatever their order. *)
Theorem fallback_pick_chain (answers d r : jval) :
  get answers "destinations" = Ok d ->
  get answers "relocationType" = Ok r ->
  text_or_falsy r = true ->
  fallback answers =
    Ok (mk_response 200 (BJson (fallback_obj (spec_pick (norm_dests d) (reloc_text r))))) /\
  (existsb (is_str "panama") (norm_dests d) = true ->
   existsb (is_str "belize") (norm_dests d) = true ->
   fallback answers = Ok (mk_response 200 (BJson (fallback_obj "Panama")))).
Proof.
  intros Hd Hr Ht.
  assert (Hf : fallback answers =
    Ok (mk_response 200 (BJson (fallback_obj (spec_pick (norm_dests d) (reloc_text r)))))).
  { unfold fallback. rewrite Hd, Hr. simpl. by rewrite fallback_pick_text. }
  split; [exact Hf|].
  intros Hp _. rewrite Hf. unfold spec_pick. by rewrite Hp.
Qed.

Lemma fallback_pick_chain_witness :
  let a := JObj [("destinations", JArr [JStr "belize"; JStr "panama"])] in
  fallback a = Ok (mk_response 200 (BJson (fallback_obj "Panama"))).
Proof.
  intros a.
  destruct (fallback_pick_chain a (JArr [JStr "belize"; JStr "panama"]) JUndef)
    as [H _]; [reflexivity|reflexivity|reflexivity|].
  rewrite H. reflexivity.
Defined.

(** C3. Every response the fallback returns has status 200 and the body
    { country, score: 75, reasons (2 strings), cities (3 entries) } whose
    country is one of "Costa Rica", "Panama", "Belize" and whose city
    names are, in order, the three of the fixed table for that country. *)
Theorem fallback_recommendation_shape (answers : jval) (resp : response) :
  fallback answers = Ok resp ->
  status resp = 200%Z /\
  exists pick reasons cities,
    rbody_of resp = BJson (JObj [("country", JStr pick); ("score", JNum 75);
                                 ("reasons", JArr reasons); ("cities", JArr cities)]) /\
    In pick countries /\
    (exists r1 r2 : string, reasons = [JStr r1; JStr r2]) /\
    length cities = 3%nat /\
    map city_name cities = map Some (city_table pick).
Proof.
  intros H. apply fallback_shape in H as (d & r & pick & _ & _ & Hp & ->).
  split; [done|].
  apply fallback_pick_in in Hp.
  eexists pick, _, _. split; [reflexivity|].
  split; [done|]. split; [eexists _, _; reflexivity|]. split; [done|].
  unfold countries in Hp.
  destruct Hp as [<-|[<-|[<-|[]]]]; reflexivity.
Qed.

Lemma fallback_recommendation_shape_witness :
  exists resp, fallback (JObj [("relocationType", JStr "work visa")]) = Ok resp /\
  status resp = 200%Z.
Proof.
  eexists. split; [reflexivity|].
  exact (proj1 (fallback_recommendation_shape (JObj [("relocationType", JStr "work visa")])
    _ eq_refl)).
Defined.

(** C10. The fallback terminates with a 200 response for every answers
    value the handler can pass it (a truthy value) whose relocation type
    is absent, falsy or a string, whatever the type of its destinations;
    the condition is needed: a number as relocation type makes
    [relocation.includes] throw. *)
Theorem fallback_total_on_text_relocation :
  (forall answers : jval,
     truthy answers = true ->
     (forall r, get answers "relocationType" = Ok r -> text_or_falsy r = true) ->
     exists resp, fallback answers = Ok resp /\ status resp = 200%Z) /\
  fallback (JObj [("relocationType", JNum 3)]) = Throw.
Proof.
  split; [|reflexivity].
  intros answers Ht Hr.
  assert (Hget : forall k, exists v, get answers k = Ok v).
  { intros k. destruct answers; simpl in *; try discriminate; eauto. }
  destruct (Hget "destinations") as [d Hd], (Hget "relocationType") as [r Hr'].
  destruct (fallback_pick_chain answers d r Hd Hr' (Hr r Hr')) as [H _].
  eexists. split; [exact H|reflexivity].
Qed.

(* ================================================================= *)
(** ** C2: credential resolution *)
(* ================================================================= *)

(** The spec's resolver: five sources, each giving a non-empty trimmed
    string or nothing, checked in order; the first success wins. *)
Definition nonempty (s : string) : option string :=
  if String.eqb s "" then None else Some s.

Definition spec_env_source (env : env_t) (x : string) : option string :=
  match env x with Some v => nonempty (trim v) | None => None end.

(** A file that cannot be read or holds only white space gives nothing. *)
Definition spec_file_source (fs : fs_t) (path : string) : option string :=
  match fs path with Some c => nonempty (trim c) | None => None end.

Definition spec_sources (env : env_t) (fs : fs_t) : list (option string) :=
  [spec_env_source env "OPENAI_API_KEY";
   spec_env_source env "OPEN_AI_KEY";
   match env "OPEN_AI_KEY_FILE" with Some p => spec_file_source fs p | None => None end;
   spec_file_source fs "./OPEN_AI_KEY";
   spec_file_source fs "/run/secrets/OPEN_AI_KEY"].

Fixpoint first_some (l : list (option string)) : option string :=
  match l with
  | [] => None
  | Some k :: _ => Some k
  | None :: r => first_some r
  end.

Definition spec_resolve (env : env_t) (fs : fs_t) : option string :=
  first_some (spec_sources env fs).

Lemma env_key_spec (env : env_t) (x : string) :
  env_key env x = spec_env_source env x.
Proof.
  unfold env_key, spec_env_source, nonempty.
  destruct (env x) as [v|]; [|done].
  destruct (String.eqb v "") eqn:E; [|done].
  apply String.eqb_eq in E as ->. done.
Qed.

Lemma tryReadFileSync_spec (fs : fs_t) (p : string) :
  tryReadFileSync fs p = spec_file_source fs p.
Proof. unfold tryReadFileSync, spec_file_source, nonempty. destruct (fs p); reflexivity. Qed.

(** C2. If reading the empty path fails (as [fs.readFileSync('')]
    does), [getApiKey] is the spec's resolver: [OPENAI_API_KEY], then
    [OPEN_AI_KEY], then the file named by [OPEN_AI_KEY_FILE], then
    [./OPEN_AI_KEY], then [/run/secrets/OPEN_AI_KEY], the first
    non-empty trimmed value winning and [null] when all fail; hence a
    usable [OPENAI_API_KEY] wins over [OPEN_AI_KEY], and an unreadable
    or blank file passes on to the next source. *)
Theorem getApiKey_priority_chain (env : env_t) (fs : fs_t) :
  fs "" = None ->
  getApiKey env fs = spec_resolve env fs /\
  (forall k, spec_env_source env "OPENAI_API_KEY" = Some k -> getApiKey env fs = Some k).
Proof.
  intros Hempty.
  assert (H : getApiKey env fs = spec_resolve env fs).
  { unfold getApiKey, spec_resolve, spec_sources.
    cbn [first_some].
    rewrite (env_key_spec env "OPENAI_API_KEY"), (env_key_spec env "OPEN_AI_KEY").
    rewrite !(tryReadFileSync_spec fs).
    destruct (spec_env_source env "OPENAI_API_KEY"); [done|].
    destruct (spec_env_source env "OPEN_AI_KEY"); [done|].
    destruct (env "OPEN_AI_KEY_FILE") as [p|]; [|done].
    destruct (String.eqb p "") eqn:E.
    - apply String.eqb_eq in E as ->.
      replace (spec_file_source fs "") with (@None string)
        by (unfold spec_file_source; by rewrite Hempty).
      done.
    - done. }
  split; [exact H|].
  intros k Hk. rewrite H. unfold spec_resolve, spec_sources. cbn [first_some]. by rewrite Hk.
Qed.

Lemma getApiKey_priority_chain_witness :
  let env := fun x => if String.eqb x "OPEN_AI_KEY_FILE" then Some "/keys/k"
                      else if String.eqb x "OPENAI_API_KEY" then Some "   " else None in
  let fs := fun p => if String.eqb p "/keys/k" then Some " sk-file
" else None in
  getApiKey env fs = Some "sk-file".
Proof.
  intros env fs.
  rewrite (proj1 (getApiKey_priority_chain env fs eq_refl)).
  reflexivity.
Defined.

(* ================================================================= *)
(** ** C4, C5, C6: the handler *)
(* ================================================================= *)

(** The spec's reading of the assistant text: from the first ['{'] on,
    the whole text when there is none. *)
Fixpoint from_first_brace (s : string) : option string :=
  match s with
  | EmptyString => None
  | String c r => if Ascii.eqb c "{"%char then Some s else from_first_brace r
  end.

Definition spec_json_text (s : string) : string :=
  match from_first_brace s with Some t => t | None => s end.

Lemma slice_from_cons (n : nat) (c : ascii) (r : string) :
  slice_from (S n) (String c r) = slice_from n r.
Proof. reflexivity. Qed.

Lemma slice_from_zero (s : string) : slice_from 0 s = s.
Proof.
  unfold slice_from. rewrite Nat.sub_0_r.
  induction s as [|c r IH]; simpl; [done|]. by rewrite IH.
Qed.

Lemma index_of_brace_some (s : string) (n : nat) :
  index_of_char "{"%char s = Some n -> from_first_brace s = Some (slice_from n s).
Proof.
  revert n. induction s as [|c r IH]; intros n; cbn [index_of_char from_first_brace]; [discriminate|].
  rewrite (Ascii.eqb_sym c).
  destruct (Ascii.eqb "{"%char c).
  - intros [= <-]. by rewrite slice_from_zero.
  - destruct (index_of_char "{"%char r) as [m|] eqn:Hi; cbn [option_map]; [|discriminate].
    intros [= <-]. rewrite slice_from_cons. by apply IH.
Qed.

Lemma index_of_brace_none (s : string) :
  index_of_char "{"%char s = None -> from_first_brace s = None.
Proof.
  induction s as [|c r IH]; cbn [index_of_char from_first_brace]; [done|].
  rewrite (Ascii.eqb_sym c).
  destruct (Ascii.eqb "{"%char c); [discriminate|].
  destruct (index_of_char "{"%char r); cbn [option_map]; [discriminate|].
  intros _. by apply IH.
Qed.

Lemma index_of_brace_spec (s : string) :
  match index_of_char "{"%char s with Some n => slice_from n s | None => s end =
  spec_json_text s.
Proof.
  unfold spec_json_text.
  destruct (index_of_char "{"%char s) eqn:Hi.
  - by rewrite (index_of_brace_some s n Hi).
  - by rewrite (index_of_brace_none s Hi).
Qed.

(** The spec's reply to an assistant text [s] ([raw] the value echoed
    back when the parse fails). *)
Definition spec_reply (json_parse : string -> option jval) (raw : jval) (s : string) : response :=
  match json_parse (spec_json_text s) with
  | Some parsed => mk_response 200 (BJson parsed)
  | None => mk_response 200 (BJson (JObj [("text", raw)]))
  end.

Definition fetch_of (json_stringify : jval -> string) (key : string) (answers : jval) : fetch_request :=
  mk_fetch_request ("Bearer " ++ key) "gpt-3.5-turbo" 35 400 (json_stringify answers).

Lemma get_not_nullish (v : jval) (k : string) :
  nullish v = false -> exists x, get v k = Ok x.
Proof. destruct v; simpl; try discriminate; eauto. Qed.

Lemma oget_ok (v : jval) (k : string) : exists x, oget v k = Ok x.
Proof.
  unfold oget. destruct (nullish v) eqn:E; [eauto|]. by apply get_not_nullish.
Qed.

Lemma oget0_ok (v : jval) : exists x, oget0 v = Ok x.
Proof.
  unfold oget0. destruct (nullish v) eqn:E; [eauto|].
  destruct v as [| | | |[|c s]|[|x l]|kvs]; simpl in *; try discriminate; eauto.
Qed.

Lemma assistant_content_ok (j : jval) :
  nullish j = false -> exists c, assistant_content j = Ok c.
Proof.
  intros Hj. unfold assistant_content.
  destruct (get_not_nullish j "choices" Hj) as [c Hc]. rewrite Hc. simpl.
  destruct (oget0_ok c) as [c0 H0]. rewrite H0. simpl.
  destruct (oget_ok c0 "message") as [m Hm]. rewrite Hm. simpl.
  apply oget_ok.
Qed.

Lemma relay_ok_content json_parse json_stringify js_to_string (w : world) (key : string)
    (answers : jval) (txt : option string) (j c : jval) :
  upstream w (fetch_of json_stringify key answers) = FetchResp true txt (Some j) ->
  assistant_content j = Ok c ->
  relay json_parse json_stringify js_to_string w key answers =
    respond_assistant json_parse js_to_string (js_or c (JStr "")).
Proof.
  intros Hu Hc. unfold relay. unfold fetch_of in Hu. rewrite Hu. simpl. by rewrite Hc.
Qed.

Lemma respond_assistant_str json_parse js_to_string (s : string) :
  respond_assistant json_parse js_to_string (JStr s) = spec_reply json_parse (JStr s) s.
Proof.
  unfold respond_assistant, parse_attempt, spec_reply.
  rewrite index_of_brace_spec.
  by destruct (json_parse (spec_json_text s)).
Qed.

(** C4 (a divergence at a [null] upstream body). For a successful
    upstream response: when its JSON body is not [null] the assistant
    content is always extracted without an exception; content that is a
    string is parsed from its first ['{'] on (all of it when there is
    none), answering 200 with the parsed value when the parse succeeds
    and 200 with { text: <the content> } when it fails; content absent
    from the body (or falsy) is handled as the empty string.  But when
    the body is JSON [null], [j.choices] throws and the outer [catch]
    answers 500, where handling the absent content as the empty string
    answers 200. *)
Theorem relay_parses_from_first_brace json_parse json_stringify js_to_string
    (w : world) (key : string) (answers : jval) (txt : option string) (j : jval) :
  upstream w (fetch_of json_stringify key answers) = FetchResp true txt (Some j) ->
  (nullish j = false -> exists c, assistant_content j = Ok c) /\
  (forall s, assistant_content j = Ok (JStr s) ->
     relay json_parse json_stringify js_to_string w key answers =
       spec_reply json_parse (JStr s) s) /\
  (forall c, assistant_content j = Ok c -> truthy c = false ->
     relay json_parse json_stringify js_to_string w key answers =
       spec_reply json_parse (JStr "") "") /\
  (nullish j = true ->
     relay json_parse json_stringify js_to_string w key answers = server_error /\
     status server_error = 500%Z /\
     status (spec_reply json_parse (JStr "") "") = 200%Z).
Proof.
  intros Hu.
  split; [apply assistant_content_ok|].
  split; [|split].
  - intros s Hc. rewrite (relay_ok_content _ _ _ _ _ _ _ _ _ Hu Hc).
    unfold js_or. simpl.
    destruct (String.eqb s "") eqn:E; simpl.
    + apply String.eqb_eq in E as ->. apply respond_assistant_str.
    + apply respond_assistant_str.
  - intros c Hc Hf. rewrite (relay_ok_content _ _ _ _ _ _ _ _ _ Hu Hc).
    unfold js_or. rewrite Hf. apply respond_assistant_str.
  - intros Hn. split; [|split; [reflexivity|]].
    + unfold relay. unfold fetch_of in Hu. rewrite Hu. simpl.
      by destruct j.
    + unfold spec_reply. by destruct (json_parse _).
Qed.

Lemma relay_parses_from_first_brace_witness :
  let w := mk_world (fun _ => None) (fun _ => None)
             (fun _ => FetchResp true None
                (Some (JObj [("choices", JArr [JObj [("message",
                   JObj [("content", JStr "Here you go: {}")])]])]))) in
  let parse := fun s => if String.eqb s "{}" then Some (JObj []) else None in
  relay parse (fun _ => "") (fun _ => "") w "k" (JObj []) = mk_response 200 (BJson (JObj [])).
Proof.
  intros w parse.
  destruct (relay_parses_from_first_brace parse (fun _ => "") (fun _ => "") w "k" (JObj [])
              None (JObj [("choices", JArr [JObj [("message",
                   JObj [("content", JStr "Here you go: {}")])]])]) eq_refl)
    as [_ [H _]].
  rewrite (H "Here you go: {}" eq_refl). reflexivity.
Defined.

(** C5. With a credential, an upstream response that is not [ok] gives
    502 with the fixed text "OpenAI API error", whatever the upstream
    body text was; a transport exception (the [fetch] itself, or a body
    read) gives 500 with the fixed text "Server error". *)
Theorem relay_error_statuses json_parse json_stringify js_to_string
    (w : world) (key : string) (answers : jval) :
  (forall t js, upstream w (fetch_of json_stringify key answers) = FetchResp false (Some t) js ->
     relay json_parse json_stringify js_to_string w key answers =
       mk_response 502 (BText "OpenAI API error")) /\
  (upstream w (fetch_of json_stringify key answers) = FetchThrows ->
     relay json_parse json_stringify js_to_string w key answers =
       mk_response 500 (BText "Server error")) /\
  (forall js, upstream w (fetch_of json_stringify key answers) = FetchResp false None js ->
     relay json_parse json_stringify js_to_string w key answers =
       mk_response 500 (BText "Server error")) /\
  (forall txt, upstream w (fetch_of json_stringify key answers) = FetchResp true txt None ->
     relay json_parse json_stringify js_to_string w key answers =
       mk_response 500 (BText "Server error")).
Proof.
  unfold relay, fetch_of.
  repeat split; intros *; intros Hu; rewrite Hu; reflexivity.
Qed.

(** With a credential, the handler's answer is the relay's. *)
Lemma proceed_with_key json_parse json_stringify js_to_string (w : world) (body a : jval)
    (key : string) :
  get body "answers" = Ok a ->
  getApiKey (env w) (fs w) = Some key ->
  proceed json_parse json_stringify js_to_string w body =
    Ok (relay json_parse json_stringify js_to_string w key (js_or a (JObj []))).
Proof. intros Ha Hk. unfold proceed. rewrite Ha. simpl. by rewrite Hk. Qed.

Lemma proceed_empty_no_throw json_parse json_stringify js_to_string (w : world) :
  proceed json_parse json_stringify js_to_string w (JObj []) <> Throw.
Proof.
  destruct (fallback_pick_chain (JObj []) JUndef JUndef eq_refl eq_refl eq_refl) as [H _].
  unfold proceed. cbn -[fallback getApiKey].
  destruct (getApiKey (env w) (fs w)); [discriminate|].
  rewrite H. discriminate.
Qed.

(** C6. A POST whose body was not pre-parsed (absent or with no keys)
    and whose raw body is missing (stream error), empty or not valid
    JSON is handled exactly as with the body {}, that is with answers
    {}, and no exception escapes; any other method is answered 405
    "Method not allowed" whatever the body. *)
Theorem malformed_body_as_empty_answers json_parse json_stringify js_to_string
    (w : world) (r : request) :
  json_parse "{}" = Some (JObj []) ->
  (method r = "POST" ->
   (truthy (req_body r) = false \/ keys_len (req_body r) = 0%nat) ->
   (req_stream r = None \/ req_stream r = Some "" \/
    exists d, req_stream r = Some d /\ json_parse d = None) ->
   handle json_parse json_stringify js_to_string w r =
     proceed json_parse json_stringify js_to_string w (JObj []) /\
   proceed json_parse json_stringify js_to_string w (JObj []) =
     proceed json_parse json_stringify js_to_string w (JObj [("answers", JObj [])]) /\
   handle json_parse json_stringify js_to_string w r <> Throw) /\
  (method r <> "POST" ->
   forall b st, handle json_parse json_stringify js_to_string w
                  (mk_request (method r) b st) =
                Ok (mk_response 405 (BText "Method not allowed"))).
Proof.
  intros Hempty. split.
  - intros Hm Hb Hs.
    assert (Hbody : request_body json_parse r = JObj []).
    { unfold request_body.
      replace (negb (truthy (req_body r)) || Nat.eqb (keys_len (req_body r)) 0) with true
        by (destruct Hb as [Hb|Hb]; rewrite Hb; [done|by rewrite orb_true_r]).
      unfold read_stream.
      destruct Hs as [-> | [-> | (d & -> & Hd)]]; [done| |].
      - simpl. by rewrite Hempty.
      - destruct (String.eqb d "") eqn:E.
        + by rewrite Hempty.
        + by rewrite Hd. }
    assert (Hh : handle json_parse json_stringify js_to_string w r =
                 proceed json_parse json_stringify js_to_string w (JObj [])).
    { unfold handle. rewrite Hm. simpl. by rewrite Hbody. }
    split; [exact Hh|]. split; [reflexivity|].
    rewrite Hh. apply proceed_empty_no_throw.
  - intros Hm b st. unfold handle. simpl.
    destruct (String.eqb (method r) "POST") eqn:E; [|done].
    apply String.eqb_eq in E. contradiction.
Qed.

Lemma malformed_body_as_empty_answers_witness :
  let parse := fun s => if String.eqb s "{}" then Some (JObj []) else None in
  let w := mk_world (fun _ => None) (fun _ => None) (fun _ => FetchThrows) in
  handle parse (fun _ => "") (fun _ => "") w (mk_request "POST" JUndef (Some "{oops")) =
    fallback (JObj []).
Proof.
  intros parse w.
  destruct (malformed_body_as_empty_answers parse (fun _ => "") (fun _ => "") w
              (mk_request "POST" JUndef (Some "{oops")) eq_refl) as [H _].
  destruct (H eq_refl (or_introl eq_refl)
              (or_intror (or_intror (ex_intro _ "{oops" (conj eq_refl eq_refl)))))
    as [-> _].
  reflexivity.
Defined.

(* ================================================================= *)
(** ** Lemmas on the highlighter *)
(* ================================================================= *)

Lemma str_mem_In (x : string) (l : list string) : str_mem x l = true <-> In x l.
Proof.
  unfold str_mem. rewrite existsb_exists. split.
  - intros (y & Hy & E). apply String.eqb_eq in E. by subst.
  - intros H. exists x. split; [done|]. apply String.eqb_refl.
Qed.

Lemma class_add_classes (c x : string) (e : elem) :
  In x (classes (class_add c e)) <-> In x (classes e) \/ x = c.
Proof.
  unfold class_add; simpl. destruct (str_mem c (classes e)) eqn:E.
  - apply str_mem_In in E. split; [tauto|]. intros [H| ->]; done.
  - rewrite in_app_iff. simpl. intuition.
Qed.

Lemma class_remove_classes (c x : string) (e : elem) :
  In x (classes (class_remove c e)) <-> In x (classes e) /\ x <> c.
Proof.
  unfold class_remove; simpl. rewrite filter_In.
  destruct (String.eqb x c) eqn:E; simpl.
  - apply String.eqb_eq in E. split; [intros [_ H]; discriminate|intros [_ H]; contradiction].
  - apply String.eqb_neq in E. tauto.
Qed.

Lemma get_attr_set_attr (k t v : string) (l : list (string * string)) :
  get_attr k (set_attr t v l) = if String.eqb k t then Some v else get_attr k l.
Proof.
  induction l as [|[k' v'] l IH]; simpl.
  - by destruct (String.eqb k t).
  - destruct (String.eqb t k') eqn:E1; simpl.
    + apply String.eqb_eq in E1 as <-. by destruct (String.eqb k t).
    + destruct (String.eqb k k') eqn:E2.
      * apply String.eqb_eq in E2 as <-. rewrite String.eqb_sym in E1. by rewrite E1.
      * apply IH.
Qed.

Lemma key_of_some (st : gmap nat elem) (id : nat) (fn : string) :
  key_of st id = Some fn ->
  exists e, st !! id = Some e /\ has_img e = false /\ has_svg e = false.
Proof.
  unfold key_of. destruct (st !! id) as [e|]; [|discriminate].
  destruct (has_img e) eqn:Hi, (has_svg e) eqn:Hs; simpl; try discriminate.
  intros _. eauto.
Qed.

Lemma amap_set_In (k : string) (v : nat) (m : amap) (x : string * nat) :
  In x (amap_set k v m) -> x = (k, v) \/ In x m.
Proof.
  induction m as [|[k' v'] m IH]; simpl; [intuition|].
  destruct (String.eqb k k') eqn:E; simpl.
  - apply String.eqb_eq in E as <-. intuition.
  - intros [H|H]; [tauto|]. destruct (IH H); tauto.
Qed.

Lemma amap_get_set (k k' : string) (v : nat) (m : amap) :
  amap_get k (amap_set k' v m) = if String.eqb k k' then Some v else amap_get k m.
Proof.
  induction m as [|[k0 v0] m IH]; simpl; [done|].
  destruct (String.eqb k' k0) eqn:E1; simpl.
  - apply String.eqb_eq in E1 as <-. by destruct (String.eqb k k').
  - destruct (String.eqb k k0) eqn:E2.
    + apply String.eqb_eq in E2 as <-. rewrite String.eqb_sym in E1. by rewrite E1.
    + apply IH.
Qed.

(** Every entry the collection records is an anchor with that filename
    and without an image or vector graphic. *)
Definition valid_amap (st : gmap nat elem) (m : amap) : Prop :=
  forall fn id, In (fn, id) m -> key_of st id = Some fn.

Lemma collect_valid (record : string -> nat -> amap -> amap) (st : gmap nat elem)
    (ids : list nat) :
  (forall fn id m x, In x (record fn id m) -> x = (fn, id) \/ In x m) ->
  valid_amap st (collect record st ids).
Proof.
  intros Hrec. unfold collect.
  assert (Hgen : forall m, valid_amap st m ->
    valid_amap st (fold_left (fun m id => match key_of st id with
                                          | Some fn => record fn id m
                                          | None => m end) ids m)).
  { induction ids as [|id ids IH]; intros m Hm; simpl; [done|].
    apply IH. destruct (key_of st id) as [fn|] eqn:Hk; [|done].
    intros fn' id' Hin. destruct (Hrec _ _ _ _ Hin) as [[= -> ->]|H]; [done|].
    by apply Hm. }
  apply Hgen. intros ? ? [].
Qed.

Lemma record_A_In fn id m x : In x (record_A fn id m) -> x = (fn, id) \/ In x m.
Proof. apply amap_set_In. Qed.

Lemma record_B_In fn id m x : In x (record_B fn id m) -> x = (fn, id) \/ In x m.
Proof. unfold record_B. destruct (amap_has fn m); [tauto|apply amap_set_In]. Qed.

(** One step of the apply loop, on the anchor [id] recorded for [fn]. *)
Definition apply_step (on_add : elem -> elem) (dests : list string) (cur : string)
    (fn : string) (id : nat) (st : gmap nat elem) : gmap nat elem :=
  match st !! id with
  | None => st
  | Some e =>
      if str_mem fn dests && negb (String.eqb fn cur)
      then <[id := on_add e]> st
      else <[id := class_remove "shimmer" e]> st
  end.

Lemma apply_loop_cons on_add dests cur fn id r st :
  apply_loop on_add dests cur ((fn, id) :: r) st =
  apply_loop on_add dests cur r (apply_step on_add dests cur fn id st).
Proof. reflexivity. Qed.

Lemma apply_step_other on_add dests cur fn id st id' :
  id' <> id -> apply_step on_add dests cur fn id st !! id' = st !! id'.
Proof.
  intros Hne. unfold apply_step.
  destruct (st !! id); [|done].
  destruct (_ && _); by rewrite lookup_insert_ne.
Qed.

Lemma apply_step_some on_add dests cur fn id st id' :
  is_Some (st !! id') -> is_Some (apply_step on_add dests cur fn id st !! id').
Proof.
  intros Hs. destruct (decide (id' = id)) as [->|Hne].
  - unfold apply_step. destruct (st !! id) eqn:E; [|done].
    destruct (_ && _); by rewrite lookup_insert_eq.
  - by rewrite apply_step_other.
Qed.

Lemma apply_loop_other on_add dests cur (m : amap) (st : gmap nat elem) (id : nat) :
  ~ In id (map snd m) -> apply_loop on_add dests cur m st !! id = st !! id.
Proof.
  revert st. induction m as [|[fn0 id0] r IH]; intros st Hn; [done|].
  rewrite apply_loop_cons. simpl in Hn.
  rewrite IH by tauto. apply apply_step_other. intros ->. tauto.
Qed.

Lemma apply_loop_entry on_add dests cur (m : amap) (st : gmap nat elem) :
  (forall e, In "shimmer" (classes (on_add e))) ->
  (forall fn1 fn2 id, In (fn1, id) m -> In (fn2, id) m -> fn1 = fn2) ->
  (forall fn id, In (fn, id) m -> is_Some (st !! id)) ->
  forall fn id, In (fn, id) m ->
  exists e, apply_loop on_add dests cur m st !! id = Some e /\
    (In "shimmer" (classes e) <-> In fn dests /\ fn <> cur).
Proof.
  intros Hadd. revert st. induction m as [|[fn0 id0] r IH]; intros st Hcons Hsome fn id Hin;
    [destruct Hin|].
  rewrite apply_loop_cons.
  assert (Hr : In (fn, id) r -> exists e,
             apply_loop on_add dests cur r (apply_step on_add dests cur fn0 id0 st) !! id = Some e /\
             (In "shimmer" (classes e) <-> In fn dests /\ fn <> cur)).
  { intros Hin'. apply IH; [| |exact Hin'].
    - intros fn1 fn2 id' H1 H2. eapply Hcons; right; eassumption.
    - intros fn' id' H. apply apply_step_some. eapply Hsome. right. exact H. }
  destruct Hin as [[= <- <-]|Hin]; [|by apply Hr].
  destruct (in_dec Nat.eq_dec id0 (map snd r)) as [Hm|Hm].
  - apply in_map_iff in Hm as [[fn' id'] [Hid Hin']]. simpl in Hid. subst id'.
    assert (fn' = fn0) as -> by (eapply Hcons; [right; exact Hin'|left; reflexivity]).
    by apply Hr.
  - rewrite apply_loop_other by exact Hm.
    destruct (Hsome fn0 id0 (or_introl eq_refl)) as [e He].
    unfold apply_step. rewrite He.
    destruct (str_mem fn0 dests && negb (String.eqb fn0 cur)) eqn:Hc.
    + rewrite lookup_insert_eq. eexists. split; [reflexivity|].
      apply andb_true_iff in Hc as [H1 H2]. apply str_mem_In in H1.
      apply negb_true_iff, String.eqb_neq in H2. split; [done|]. intros _. apply Hadd.
    + rewrite lookup_insert_eq. eexists. split; [reflexivity|].
      rewrite class_remove_classes. split; [intros [_ []]; reflexivity|].
      intros [H1 H2]. apply str_mem_In in H1. rewrite H1 in Hc. simpl in Hc.
      apply negb_false_iff, String.eqb_eq in Hc. contradiction.
Qed.

Lemma valid_consistent (st : gmap nat elem) (m : amap) :
  valid_amap st m -> forall fn1 fn2 id, In (fn1, id) m -> In (fn2, id) m -> fn1 = fn2.
Proof. intros Hv fn1 fn2 id H1 H2. apply Hv in H1, H2. congruence. Qed.

Lemma valid_some (st : gmap nat elem) (m : amap) :
  valid_amap st m -> forall fn id, In (fn, id) m -> is_Some (st !! id).
Proof.
  intros Hv fn id H. apply Hv, key_of_some in H as (e & He & _). by rewrite He.
Qed.

Lemma key_of_logo (st : gmap nat elem) (id : nat) (e : elem) :
  st !! id = Some e -> has_img e || has_svg e = true -> key_of st id = None.
Proof. intros He Hl. unfold key_of. by rewrite He, Hl. Qed.

Lemma valid_collect_A (p : page) : valid_amap (store p) (collect_A p).
Proof. apply collect_valid, record_A_In. Qed.

Lemma valid_recorded_B (p : page) : valid_amap (store p) (recorded_B p).
Proof.
  unfold recorded_B. destruct (destinationPages_B p); [intros ? ? []|].
  apply collect_valid, record_B_In.
Qed.

Lemma run_B_recorded (p : page) :
  run_B p = apply_loop on_add_B (destinationPages_B p) (current_of p) (recorded_B p) (store p).
Proof. unfold run_B, recorded_B. by destruct (destinationPages_B p). Qed.

Lemma on_add_A_shimmer (e : elem) : In "shimmer" (classes (on_add_A e)).
Proof. unfold on_add_A, ensure_tabindex. simpl. apply class_add_classes. by right. Qed.

Lemma on_add_B_shimmer (e : elem) : In "shimmer" (classes (on_add_B e)).
Proof. unfold on_add_B. apply class_add_classes. by right. Qed.

(* ================================================================= *)
(** ** C7, C8, C9: the highlighter *)
(* ================================================================= *)

(** C7. In both variants, every recorded anchor carries the class
    "shimmer" after the run exactly when its filename is one of the
    destinations and differs from the current page's filename; an anchor
    containing an image or a vector graphic is never recorded and is left
    exactly as it was. *)
Theorem shimmer_iff_other_destination (p : page) :
  (forall fn id, In (fn, id) (collect_A p) ->
     exists e, run_A p !! id = Some e /\
       (In "shimmer" (classes e) <-> In fn destinationPages_A /\ fn <> current_of p)) /\
  (forall fn id, In (fn, id) (recorded_B p) ->
     exists e, run_B p !! id = Some e /\
       (In "shimmer" (classes e) <-> In fn (destinationPages_B p) /\ fn <> current_of p)) /\
  (forall id e, store p !! id = Some e -> has_img e || has_svg e = true ->
     (forall fn, ~ In (fn, id) (collect_A p)) /\ (forall fn, ~ In (fn, id) (recorded_B p)) /\
     run_A p !! id = Some e /\ run_B p !! id = Some e).
Proof.
  pose proof (valid_collect_A p) as HA. pose proof (valid_recorded_B p) as HB.
  split; [|split].
  - intros fn id Hin. unfold run_A.
    apply apply_loop_entry; [apply on_add_A_shimmer|eapply valid_consistent, HA|
                             eapply valid_some, HA|exact Hin].
  - intros fn id Hin. rewrite run_B_recorded.
    apply apply_loop_entry; [apply on_add_B_shimmer|eapply valid_consistent, HB|
                             eapply valid_some, HB|exact Hin].
  - intros id e He Hl. pose proof (key_of_logo _ _ _ He Hl) as Hk.
    assert (nA : forall fn, ~ In (fn, id) (collect_A p)).
    { intros fn H. apply HA in H. congruence. }
    assert (nB : forall fn, ~ In (fn, id) (recorded_B p)).
    { intros fn H. apply HB in H. congruence. }
    split; [done|]. split; [done|]. split.
    + unfold run_A. rewrite apply_loop_other; [done|].
      intros H. apply in_map_iff in H as [[fn id'] [Hid H]]. simpl in Hid. subst.
      exact (nA fn H).
    + rewrite run_B_recorded, apply_loop_other; [done|].
      intros H. apply in_map_iff in H as [[fn id'] [Hid H]]. simpl in Hid. subst.
      exact (nB fn H).
Qed.

(** A header with links to the three destination pages and a logo link
    (wrapping an image) to belize.html, on the page /site/panama.html. *)
Definition nav_link (href : string) (logo : bool) : elem :=
  mk_elem [("href", href)] [] logo false.

Definition example_page : page :=
  mk_page (<[1%nat := nav_link "costarica.html" false]>
          (<[2%nat := nav_link "panama.html" false]>
          (<[3%nat := nav_link "belize.html" false]>
          (<[4%nat := nav_link "belize.html" true]> ∅))))
    (fun sel => if String.eqb sel "header .max-w-7xl nav a[href$='.html']" then [4; 1; 2; 3]%nat
                else if String.eqb sel "header nav a[href$='.html']" then [4; 1; 2; 3]%nat
                else [])
    (Some [("data-destinations", "costarica.html,panama.html,belize.html")])
    "/site/panama.html".

Lemma example_page_shimmer :
  (forall run, run = run_A example_page \/ run = run_B example_page ->
     fmap (fun e => str_mem "shimmer" (classes e)) run =
       <[1%nat := true]> (<[2%nat := false]> (<[3%nat := true]> (<[4%nat := false]>
         (∅ : gmap nat bool))))) /\
  run_B example_page !! 4%nat = Some (nav_link "belize.html" true) /\
  run_A example_page !! 4%nat = Some (nav_link "belize.html" true).
Proof.
  split; [|split; reflexivity].
  intros run [-> | ->]; vm_compute; reflexivity.
Qed.

(** The first anchor of the scan that would be recorded for [fn]. *)
Fixpoint first_with (st : gmap nat elem) (fn : string) (ids : list nat) : option nat :=
  match ids with
  | [] => None
  | id :: r => if decide (key_of st id = Some fn) then Some id else first_with st fn r
  end.

Lemma amap_get_record_B (k fn : string) (id : nat) (m : amap) :
  amap_get k (record_B fn id m) =
    match amap_get k m with
    | Some v => Some v
    | None => if String.eqb k fn then Some id else None
    end.
Proof.
  unfold record_B, amap_has.
  destruct (amap_get k m) eqn:Hk.
  - destruct (String.eqb k fn) eqn:E.
    + apply String.eqb_eq in E as ->. by rewrite Hk.
    + destruct (amap_get fn m); [done|]. by rewrite amap_get_set, E.
  - destruct (String.eqb k fn) eqn:E.
    + apply String.eqb_eq in E as ->. rewrite Hk, amap_get_set, String.eqb_refl. done.
    + destruct (amap_get fn m); [done|]. by rewrite amap_get_set, E.
Qed.

Lemma collect_B_first (st : gmap nat elem) (ids : list nat) (fn : string) (m : amap) :
  amap_get fn (fold_left (fun m id => match key_of st id with
                                      | Some fn => record_B fn id m
                                      | None => m end) ids m) =
  match amap_get fn m with Some v => Some v | None => first_with st fn ids end.
Proof.
  revert m. induction ids as [|id ids IH]; intros m; simpl.
  - by destruct (amap_get fn m).
  - rewrite IH.
    destruct (key_of st id) as [fn'|] eqn:Hk.
    + rewrite amap_get_record_B.
      destruct (amap_get fn m) eqn:Hm; [done|].
      destruct (String.eqb fn fn') eqn:E.
      * apply String.eqb_eq in E as ->. by rewrite decide_True.
      * apply String.eqb_neq in E. rewrite decide_False; [done|congruence].
    + destruct (amap_get fn m); [done|]. rewrite decide_False; [done|congruence].
Qed.

(** Two links to panama.html, found in this order. *)
Definition duplicate_page : page :=
  mk_page (<[1%nat := nav_link "panama.html" false]>
          (<[2%nat := nav_link "/pages/panama.html" false]> ∅))
    (fun sel => if String.eqb sel "header .max-w-7xl nav a[href$='.html']" then [1; 2]%nat
                else if String.eqb sel "header nav a[href$='.html']" then [1; 2]%nat
                else [])
    (Some [("data-destinations", "costarica.html,panama.html,belize.html")])
    "/belize.html".

(** C8 (a divergence of variant A). Variant B records, for each filename,
    the first qualifying anchor of the scan; on [duplicate_page], whose
    scan finds two links to panama.html (anchor 1, then anchor 2),
    variant A records anchor 2, the last one, since [anchors.set]
    overwrites the value of an existing key. *)
Theorem first_occurrence_wins_B_not_A :
  (forall (p : page) (fn : string),
     amap_get fn (collect_B p) = first_with (store p) fn (scan p selectors_B)) /\
  first_with (store duplicate_page) "panama.html" (scan duplicate_page selectors_A) = Some 1%nat /\
  amap_get "panama.html" (collect_A duplicate_page) = Some 2%nat.
Proof.
  split; [|split; reflexivity].
  intros p fn. unfold collect_B, collect. by rewrite collect_B_first.
Qed.

(** The run changes, on an element, at most the membership of "shimmer"
    in its class list. *)
Definition same_but_shimmer (e e' : elem) : Prop :=
  has_img e' = has_img e /\ has_svg e' = has_svg e /\
  (forall c, c <> "shimmer" -> In c (classes e') <-> In c (classes e)).

Definition frame_B (e e' : elem) : Prop := attrs e' = attrs e /\ same_but_shimmer e e'.

(** Variant A may besides set [tabindex] to "0" where it was absent or empty. *)
Definition frame_A (e e' : elem) : Prop :=
  same_but_shimmer e e' /\
  (forall k, k <> "tabindex" -> get_attr k (attrs e') = get_attr k (attrs e)) /\
  (get_attr "tabindex" (attrs e') = get_attr "tabindex" (attrs e) \/
   (get_attr "tabindex" (attrs e') = Some "0" /\
    (get_attr "tabindex" (attrs e) = None \/ get_attr "tabindex" (attrs e) = Some ""))).

Section Frame.
Variable R : elem -> elem -> Prop.
Hypothesis R_refl : forall e, R e e.
Hypothesis R_trans : forall e1 e2 e3, R e1 e2 -> R e2 e3 -> R e1 e3.
Variable on_add : elem -> elem.
Hypothesis R_add : forall e, R e (on_add e).
Hypothesis R_remove : forall e, R e (class_remove "shimmer" e).
Variable dests : list string.
Variable cur : string.

Lemma apply_step_frame fn id0 (st : gmap nat elem) (id : nat) :
  (forall e, st !! id = Some e ->
     exists e', apply_step on_add dests cur fn id0 st !! id = Some e' /\ R e e') /\
  (st !! id = None -> apply_step on_add dests cur fn id0 st !! id = None).
Proof.
  destruct (decide (id = id0)) as [->|Hne].
  - unfold apply_step. split.
    + intros e He. rewrite He.
      destruct (_ && _); rewrite lookup_insert_eq; eauto.
    + intros He. by rewrite He.
  - rewrite apply_step_other by exact Hne. split; [eauto|done].
Qed.

Lemma apply_loop_frame (m : amap) (st : gmap nat elem) (id : nat) :
  (forall e, st !! id = Some e ->
     exists e', apply_loop on_add dests cur m st !! id = Some e' /\ R e e') /\
  (st !! id = None -> apply_loop on_add dests cur m st !! id = None).
Proof.
  revert st. induction m as [|[fn id0] r IH]; intros st; simpl.
  - split; [eauto|done].
  - destruct (apply_step_frame fn id0 st id) as [Hs Hn].
    fold (apply_step on_add dests cur fn id0 st).
    destruct (IH (apply_step on_add dests cur fn id0 st)) as [IHs IHn].
    split.
    + intros e He. destruct (Hs e He) as (e1 & He1 & R1).
      destruct (IHs e1 He1) as (e2 & He2 & R2). eauto.
    + intros He. by apply IHn, Hn.
Qed.

End Frame.

Lemma same_but_shimmer_refl (e : elem) : same_but_shimmer e e.
Proof. unfold same_but_shimmer. tauto. Qed.

Lemma same_but_shimmer_trans (e1 e2 e3 : elem) :
  same_but_shimmer e1 e2 -> same_but_shimmer e2 e3 -> same_but_shimmer e1 e3.
Proof.
  intros (I1 & S1 & C1) (I2 & S2 & C2). split; [congruence|]. split; [congruence|].
  intros c Hc. rewrite C2, C1 by exact Hc. tauto.
Qed.

Lemma same_but_shimmer_add (e : elem) : same_but_shimmer e (class_add "shimmer" e).
Proof.
  split; [done|]. split; [done|]. intros c Hc. rewrite class_add_classes. intuition.
Qed.

Lemma same_but_shimmer_remove (e : elem) : same_but_shimmer e (class_remove "shimmer" e).
Proof.
  split; [done|]. split; [done|]. intros c Hc. rewrite class_remove_classes. intuition.
Qed.

Lemma frame_B_refl e : frame_B e e.
Proof. split; [done|apply same_but_shimmer_refl]. Qed.

Lemma frame_B_trans e1 e2 e3 : frame_B e1 e2 -> frame_B e2 e3 -> frame_B e1 e3.
Proof.
  intros [A1 S1] [A2 S2]. split; [congruence|]. eapply same_but_shimmer_trans; eassumption.
Qed.

Lemma frame_A_refl e : frame_A e e.
Proof. split; [apply same_but_shimmer_refl|]. split; [done|by left]. Qed.

Lemma frame_A_trans e1 e2 e3 : frame_A e1 e2 -> frame_A e2 e3 -> frame_A e1 e3.
Proof.
  intros (S1 & K1 & T1) (S2 & K2 & T2).
  split; [eapply same_but_shimmer_trans; eassumption|].
  split; [intros k Hk; rewrite K2, K1 by exact Hk; done|].
  destruct T1 as [T1|(T1 & T1')], T2 as [T2|(T2 & T2')].
  - left. congruence.
  - right. rewrite T1 in T2'. tauto.
  - right. rewrite T2. tauto.
  - exfalso. rewrite T1 in T2'. destruct T2'; discriminate.
Qed.

Lemma frame_A_add e : frame_A e (on_add_A e).
Proof.
  unfold on_add_A, ensure_tabindex. split; [|split].
  - destruct (same_but_shimmer_add e) as (I & S & C). split; [done|]. split; [done|]. exact C.
  - intros k Hk. simpl. rewrite get_attr_set_attr.
    apply String.eqb_neq in Hk. by rewrite Hk.
  - simpl. rewrite get_attr_set_attr, String.eqb_refl.
    destruct (get_attr "tabindex" (attrs e)) as [v|] eqn:Ht.
    + destruct (String.eqb v "") eqn:E.
      * apply String.eqb_eq in E as ->. right. tauto.
      * left. reflexivity.
    + right. tauto.
Qed.

Lemma frame_A_remove e : frame_A e (class_remove "shimmer" e).
Proof.
  split; [apply same_but_shimmer_remove|]. split; [done|by left].
Qed.

Lemma frame_B_add e : frame_B e (on_add_B e).
Proof. split; [done|apply same_but_shimmer_add]. Qed.

Lemma frame_B_remove e : frame_B e (class_remove "shimmer" e).
Proof. split; [done|apply same_but_shimmer_remove]. Qed.

(* ================================================================= *)
(** ** Re-running the highlighter *)
(* ================================================================= *)

(** The page after the run: the same markup (the selectors mention
    neither classes nor [tabindex], so [querySelectorAll] finds the same
    anchors) with the updated elements. *)
Definition with_store (p : page) (st : gmap nat elem) : page :=
  mk_page st (select p) (body_attrs p) (pathname p).

(** [window.__shimmerReapply] of variant B: collect again on the current
    DOM and apply, with the destination list and current filename
    captured by the first run. *)
Definition shimmerReapply (dests : list string) (cur : string) (p : page) : gmap nat elem :=
  apply_loop on_add_B dests cur (collect record_B (store p) (scan p selectors_B)) (store p).

(** What one step of the apply loop does to the anchor. *)
Definition step_elem (on_add : elem -> elem) (dests : list string) (cur : string)
    (fn : string) (e : elem) : elem :=
  if str_mem fn dests && negb (String.eqb fn cur) then on_add e else class_remove "shimmer" e.

Lemma apply_step_elem on_add dests cur fn id st e :
  st !! id = Some e ->
  apply_step on_add dests cur fn id st = <[id := step_elem on_add dests cur fn e]> st.
Proof. intros He. unfold apply_step, step_elem. rewrite He. by destruct (_ && _). Qed.

Lemma apply_loop_entry_gen on_add dests cur (m : amap) (st : gmap nat elem) :
  (forall fn1 fn2 id, In (fn1, id) m -> In (fn2, id) m -> fn1 = fn2) ->
  (forall fn id, In (fn, id) m -> is_Some (st !! id)) ->
  forall fn id, In (fn, id) m ->
  exists e0, apply_loop on_add dests cur m st !! id = Some (step_elem on_add dests cur fn e0).
Proof.
  revert st. induction m as [|[fn0 id0] r IH]; intros st Hcons Hsome fn id Hin;
    [destruct Hin|].
  rewrite apply_loop_cons.
  assert (Hr : In (fn, id) r -> exists e0,
             apply_loop on_add dests cur r (apply_step on_add dests cur fn0 id0 st) !! id =
             Some (step_elem on_add dests cur fn e0)).
  { intros Hin'. apply IH; [| |exact Hin'].
    - intros fn1 fn2 id' H1 H2. eapply Hcons; right; eassumption.
    - intros fn' id' H. apply apply_step_some. eapply Hsome. right. exact H. }
  destruct Hin as [[= <- <-]|Hin]; [|by apply Hr].
  destruct (in_dec Nat.eq_dec id0 (map snd r)) as [Hm|Hm].
  - apply in_map_iff in Hm as [[fn' id'] [Hid Hin']]. simpl in Hid. subst id'.
    assert (fn' = fn0) as -> by (eapply Hcons; [right; exact Hin'|left; reflexivity]).
    by apply Hr.
  - rewrite apply_loop_other by exact Hm.
    destruct (Hsome fn0 id0 (or_introl eq_refl)) as [e He].
    rewrite (apply_step_elem _ _ _ _ _ _ e He), lookup_insert_eq. eauto.
Qed.

Lemma apply_loop_fixed on_add dests cur (m : amap) (st : gmap nat elem) :
  (forall fn id, In (fn, id) m -> apply_step on_add dests cur fn id st = st) ->
  apply_loop on_add dests cur m st = st.
Proof.
  induction m as [|[fn id] r IH]; intros H; [done|].
  rewrite apply_loop_cons, (H fn id (or_introl eq_refl)).
  apply IH. intros fn' id' Hin. apply H. by right.
Qed.

Lemma elem_eta (e : elem) : mk_elem (attrs e) (classes e) (has_img e) (has_svg e) = e.
Proof. by destruct e. Qed.

Lemma class_add_present (e : elem) : In "shimmer" (classes e) -> class_add "shimmer" e = e.
Proof.
  intros H. unfold class_add. apply str_mem_In in H. rewrite H. apply elem_eta.
Qed.

Lemma class_remove_idem (e : elem) :
  class_remove "shimmer" (class_remove "shimmer" e) = class_remove "shimmer" e.
Proof.
  unfold class_remove. simpl. f_equal.
  induction (classes e) as [|c l IH]; simpl; [done|].
  destruct (String.eqb c "shimmer") eqn:E; simpl; [done|]. rewrite E. simpl. by rewrite IH.
Qed.

Lemma set_attr_idem (k v : string) (l : list (string * string)) :
  set_attr k v (set_attr k v l) = set_attr k v l.
Proof.
  induction l as [|[k' v'] l IH]; simpl.
  - by rewrite String.eqb_refl.
  - destruct (String.eqb k k') eqn:E; simpl; rewrite E; [done|]. by rewrite IH.
Qed.

Lemma ensure_tabindex_idem (e : elem) : ensure_tabindex (ensure_tabindex e) = ensure_tabindex e.
Proof.
  unfold ensure_tabindex. simpl. rewrite get_attr_set_attr, String.eqb_refl.
  destruct (get_attr "tabindex" (attrs e)) as [v|].
  - destruct (String.eqb v "") eqn:E; simpl.
    + by rewrite set_attr_idem.
    + rewrite E. by rewrite set_attr_idem.
  - simpl. by rewrite set_attr_idem.
Qed.

Lemma on_add_A_idem (e : elem) : on_add_A (on_add_A e) = on_add_A e.
Proof.
  unfold on_add_A. rewrite (class_add_present (ensure_tabindex _)).
  - apply ensure_tabindex_idem.
  - unfold ensure_tabindex. simpl. apply class_add_classes. by right.
Qed.

Lemma on_add_B_idem (e : elem) : on_add_B (on_add_B e) = on_add_B e.
Proof. unfold on_add_B. apply class_add_present, class_add_classes. by right. Qed.

Lemma step_elem_idem on_add dests cur fn (e : elem) :
  (forall e, on_add (on_add e) = on_add e) ->
  step_elem on_add dests cur fn (step_elem on_add dests cur fn e) =
  step_elem on_add dests cur fn e.
Proof.
  intros Hi. unfold step_elem. destruct (_ && _); [apply Hi|apply class_remove_idem].
Qed.

(** The apply loop, run a second time with the same entries, changes
    nothing. *)
Lemma apply_loop_twice on_add dests cur (m : amap) (st : gmap nat elem) :
  (forall e, on_add (on_add e) = on_add e) ->
  (forall fn1 fn2 id, In (fn1, id) m -> In (fn2, id) m -> fn1 = fn2) ->
  (forall fn id, In (fn, id) m -> is_Some (st !! id)) ->
  apply_loop on_add dests cur m (apply_loop on_add dests cur m st) =
  apply_loop on_add dests cur m st.
Proof.
  intros Hi Hcons Hsome. apply apply_loop_fixed. intros fn id Hin.
  destruct (apply_loop_entry_gen on_add dests cur m st Hcons Hsome fn id Hin) as [e0 He].
  rewrite (apply_step_elem _ _ _ _ _ _ _ He), step_elem_idem by exact Hi.
  by apply insert_id.
Qed.

Lemma collect_ext (record : string -> nat -> amap -> amap) (st st' : gmap nat elem)
    (ids : list nat) :
  (forall id, key_of st' id = key_of st id) ->
  collect record st' ids = collect record st ids.
Proof.
  intros H. unfold collect. generalize (@nil (string * nat)) as m.
  induction ids as [|id ids IH]; intros m; simpl; [done|]. rewrite H. apply IH.
Qed.

Lemma key_of_preserved (st st' : gmap nat elem) :
  (forall id e, st !! id = Some e -> exists e', st' !! id = Some e' /\
     has_img e' = has_img e /\ has_svg e' = has_svg e /\
     get_attr "href" (attrs e') = get_attr "href" (attrs e)) ->
  (forall id, st !! id = None -> st' !! id = None) ->
  forall id, key_of st' id = key_of st id.
Proof.
  intros Hs Hn id. unfold key_of.
  destruct (st !! id) as [e|] eqn:He.
  - destruct (Hs id e He) as (e' & -> & I & S & Hh). by rewrite I, S, Hh.
  - by rewrite Hn.
Qed.

Lemma run_A_frame (p : page) (id : nat) :
  (forall e, store p !! id = Some e -> exists e', run_A p !! id = Some e' /\ frame_A e e') /\
  (store p !! id = None -> run_A p !! id = None).
Proof.
  exact (apply_loop_frame frame_A frame_A_refl frame_A_trans on_add_A frame_A_add
           frame_A_remove destinationPages_A (current_of p) (collect_A p) (store p) id).
Qed.

Lemma run_B_frame (p : page) (id : nat) :
  (forall e, store p !! id = Some e -> exists e', run_B p !! id = Some e' /\ frame_B e e') /\
  (store p !! id = None -> run_B p !! id = None).
Proof.
  rewrite run_B_recorded.
  exact (apply_loop_frame frame_B frame_B_refl frame_B_trans on_add_B frame_B_add
           frame_B_remove (destinationPages_B p) (current_of p) (recorded_B p) (store p) id).
Qed.

Lemma collect_A_after_run (p : page) : collect_A (with_store p (run_A p)) = collect_A p.
Proof.
  unfold collect_A. simpl. unfold scan. simpl. apply collect_ext.
  apply key_of_preserved.
  - intros id e He. destruct (proj1 (run_A_frame p id) e He) as (e' & He' & (I & S & _) & K & _).
    exists e'. split; [done|]. split; [done|]. split; [done|]. by apply K.
  - intros id. apply (proj2 (run_A_frame p id)).
Qed.

Lemma collect_B_after_run (p : page) :
  collect record_B (run_B p) (scan p selectors_B) = collect record_B (store p) (scan p selectors_B).
Proof.
  apply collect_ext, key_of_preserved.
  - intros id e He. destruct (proj1 (run_B_frame p id) e He) as (e' & He' & A & I & S & _).
    exists e'. split; [done|]. split; [done|]. split; [done|]. by rewrite A.
  - intros id. apply (proj2 (run_B_frame p id)).
Qed.

(** The anchor recorded for [fn] ends the loop as one application of the
    step to the element it had before, when every entry of the map for
    that element names the same filename and the added state is
    idempotent. *)
Lemma apply_loop_exact on_add dests cur (m : amap) (st : gmap nat elem) (fn : string)
    (id : nat) (e : elem) :
  (forall e, on_add (on_add e) = on_add e) ->
  (forall fn1 fn2 id, In (fn1, id) m -> In (fn2, id) m -> fn1 = fn2) ->
  In (fn, id) m -> st !! id = Some e ->
  apply_loop on_add dests cur m st !! id = Some (step_elem on_add dests cur fn e).
Proof.
  intros Hi. revert st e. induction m as [|[fn0 id0] r IH]; intros st e Hcons Hin He;
    [destruct Hin|].
  assert (Hcons' : forall fn1 fn2 id, In (fn1, id) r -> In (fn2, id) r -> fn1 = fn2)
    by (intros fn1 fn2 id' H1 H2; eapply Hcons; right; eassumption).
  rewrite apply_loop_cons.
  destruct (decide (id = id0)) as [<-|Hne].
  - assert (fn0 = fn) as -> by (eapply Hcons; [left; reflexivity|exact Hin]).
    rewrite (apply_step_elem _ _ _ _ _ _ e He).
    destruct (in_dec Nat.eq_dec id (map snd r)) as [Hr|Hr].
    + apply in_map_iff in Hr as [[fn' id'] [Hid Hr]]. simpl in Hid. subst id'.
      assert (fn' = fn) as -> by (eapply Hcons; [right; exact Hr|exact Hin]).
      rewrite (IH _ (step_elem on_add dests cur fn e) Hcons' Hr) by apply lookup_insert_eq.
      by rewrite step_elem_idem.
    + rewrite apply_loop_other by exact Hr. apply lookup_insert_eq.
  - destruct Hin as [[= -> ->]|Hin]; [congruence|].
    apply (IH _ e Hcons' Hin). rewrite apply_step_other by exact Hne. exact He.
Qed.

Lemma run_A_exact (p : page) (fn : string) (id : nat) (e : elem) :
  In (fn, id) (collect_A p) -> store p !! id = Some e ->
  run_A p !! id = Some (step_elem on_add_A destinationPages_A (current_of p) fn e).
Proof.
  intros Hin He. apply apply_loop_exact; [apply on_add_A_idem| |exact Hin|exact He].
  eapply valid_consistent, valid_collect_A.
Qed.

(** C9 (as amended). Variant B changes, on every element of the page,
    nothing but the membership of "shimmer" in its class list (its
    attributes, its other classes and its content are kept, and no
    element appears or disappears).  Variant A does the same except that
    it may set the attribute [tabindex] to "0" where it was absent or
    empty, and only on an element that has the class after the run;
    every other attribute is kept. *)
Theorem highlighter_frame (p : page) :
  (forall id e, store p !! id = Some e -> exists e', run_B p !! id = Some e' /\ frame_B e e') /\
  (forall id, store p !! id = None -> run_B p !! id = None) /\
  (forall id e, store p !! id = Some e -> exists e', run_A p !! id = Some e' /\ frame_A e e' /\
     (get_attr "tabindex" (attrs e') <> get_attr "tabindex" (attrs e) ->
      In "shimmer" (classes e'))) /\
  (forall id, store p !! id = None -> run_A p !! id = None).
Proof.
  pose proof (fun id => apply_loop_frame frame_B frame_B_refl frame_B_trans on_add_B frame_B_add
                frame_B_remove (destinationPages_B p) (current_of p) (recorded_B p)
                (store p) id) as HB.
  pose proof (fun id => apply_loop_frame frame_A frame_A_refl frame_A_trans on_add_A frame_A_add
                frame_A_remove destinationPages_A (current_of p) (collect_A p)
                (store p) id) as HA.
  rewrite run_B_recorded. unfold run_A.
  split; [intros id; apply (HB id)|]. split; [intros id; apply (HB id)|].
  split; [|intros id; apply (HA id)].
  intros id e He. destruct (proj1 (HA id) e He) as (e' & He' & Hf).
  exists e'. split; [exact He'|]. split; [exact Hf|].
  intros Ht. fold (run_A p) in He'.
  destruct (in_dec Nat.eq_dec id (map snd (collect_A p))) as [Hin|Hin].
  - apply in_map_iff in Hin as [[fn id'] [Hid Hin]]. simpl in Hid. subst id'.
    rewrite (run_A_exact p fn id e Hin He) in He'. injection He' as <-.
    unfold step_elem in *. destruct (_ && _); [apply on_add_A_shimmer|].
    exfalso. apply Ht. reflexivity.
  - unfold run_A in He'. rewrite apply_loop_other in He' by exact Hin.
    rewrite He in He'. injection He' as <-. exfalso. by apply Ht.
Qed.

(** C9 counterexample: on [example_page], variant A adds the attribute
    tabindex="0" to the costarica.html link, which had none. *)
Lemma highlighter_frame_counterexample :
  exists e e', store example_page !! 1%nat = Some e /\ run_A example_page !! 1%nat = Some e' /\
    get_attr "tabindex" (attrs e) = None /\ get_attr "tabindex" (attrs e') = Some "0".
Proof. do 2 eexists. split; [reflexivity|]. split; [vm_compute; reflexivity|]. split; reflexivity. Qed.

(** X1. Running variant A a second time on the page it produced changes
    nothing: the same anchors are recorded and each already has its final
    class list and [tabindex]. *)
Theorem run_A_idempotent (p : page) : run_A (with_store p (run_A p)) = run_A p.
Proof.
  unfold run_A at 1. rewrite collect_A_after_run. simpl.
  change (current_of (with_store p (run_A p))) with (current_of p).
  unfold run_A. apply apply_loop_twice.
  - apply on_add_A_idem.
  - eapply valid_consistent, valid_collect_A.
  - eapply valid_some, valid_collect_A.
Qed.

(** X2. Calling [window.__shimmerReapply] after variant B has run, on an
    unchanged header, changes nothing. *)
Theorem shimmerReapply_after_run_B (p : page) :
  destinationPages_B p <> [] ->
  shimmerReapply (destinationPages_B p) (current_of p) (with_store p (run_B p)) = run_B p.
Proof.
  intros Hne. unfold shimmerReapply. simpl.
  change (scan (with_store p (run_B p)) selectors_B) with (scan p selectors_B).
  rewrite collect_B_after_run.
  assert (Hr : run_B p = apply_loop on_add_B (destinationPages_B p) (current_of p)
                           (collect_B p) (store p)).
  { unfold run_B. by destruct (destinationPages_B p). }
  pose proof (valid_recorded_B p) as HB. unfold recorded_B in HB.
  destruct (destinationPages_B p) eqn:Hd; [done|]. rewrite <- Hd in *.
  rewrite Hr. apply apply_loop_twice.
  - apply on_add_B_idem.
  - eapply valid_consistent, HB.
  - eapply valid_some, HB.
Qed.

Lemma shimmerReapply_after_run_B_witness :
  destinationPages_B example_page <> [] /\
  shimmerReapply (destinationPages_B example_page) (current_of example_page)
    (with_store example_page (run_B example_page)) = run_B example_page.
Proof.
  assert (H : destinationPages_B example_page <> []) by (vm_compute; discriminate).
  split; [exact H|]. exact (shimmerReapply_after_run_B example_page H).
Defined.

(* ================================================================= *)
(** ** Which elements the highlighter can touch; filename normalization *)
(* ================================================================= *)

Lemma collect_ids_in_scan (record : string -> nat -> amap -> amap) (st : gmap nat elem)
    (ids : list nat) :
  (forall fn id m x, In x (record fn id m) -> x = (fn, id) \/ In x m) ->
  forall fn id, In (fn, id) (collect record st ids) -> In id ids.
Proof.
  intros Hrec. unfold collect.
  assert (Hgen : forall (P : nat -> Prop) l m,
    (forall fn id, In (fn, id) m -> P id) -> (forall x, In x l -> P x) ->
    forall fn id, In (fn, id) (fold_left (fun m id => match key_of st id with
                                          | Some fn => record fn id m
                                          | None => m end) l m) -> P id).
  { intros P l. induction l as [|i l IH]; intros m Hm Hl; simpl; [exact Hm|].
    apply IH; [|intros x Hx; apply Hl; by right].
    destruct (key_of st i) as [fn'|]; [|exact Hm].
    intros fn id Hin. destruct (Hrec _ _ _ _ Hin) as [[= -> ->]|H].
    - apply Hl. by left.
    - by apply (Hm fn). }
  apply (Hgen (fun id => In id ids)); [intros ? ? []|tauto].
Qed.

Lemma apply_loop_outside on_add dests cur (m : amap) (st : gmap nat elem) (ids : list nat)
    (id : nat) :
  (forall fn id', In (fn, id') m -> In id' ids) -> ~ In id ids ->
  apply_loop on_add dests cur m st !! id = st !! id.
Proof.
  intros Hm Hn. apply apply_loop_other. intros H.
  apply in_map_iff in H as [[fn id'] [Hid H]]. simpl in Hid. subst id'.
  exact (Hn (Hm fn id H)).
Qed.

(** X3. Neither variant changes an element that none of its selectors
    finds. *)
Theorem run_untouched_outside_selectors (p : page) (id : nat) :
  (~ In id (scan p selectors_A) -> run_A p !! id = store p !! id) /\
  (~ In id (scan p selectors_B) -> run_B p !! id = store p !! id).
Proof.
  split; intros Hn.
  - unfold run_A. eapply apply_loop_outside; [|exact Hn].
    apply collect_ids_in_scan, record_A_In.
  - unfold run_B. destruct (destinationPages_B p); [done|].
    eapply apply_loop_outside; [|exact Hn].
    apply collect_ids_in_scan, record_B_In.
Qed.

Lemma split_on_no_sep (c : ascii) (s : string) :
  index_of_char c s = None -> split_on c s = [s].
Proof.
  induction s as [|x r IH]; cbn [index_of_char split_on]; [done|].
  destruct (Ascii.eqb c x); [discriminate|].
  destruct (index_of_char c r); cbn [option_map]; [discriminate|].
  intros _. by rewrite IH.
Qed.

Lemma str_append_nil (t : string) : String.append EmptyString t = t.
Proof. reflexivity. Qed.

Lemma str_append_cons (x : ascii) (r t : string) :
  String.append (String x r) t = String x (String.append r t).
Proof. reflexivity. Qed.

Lemma split_on_app_sep (c : ascii) (a b : string) :
  exists w pre, split_on c (a ++ String c b) = (w :: pre) ++ split_on c b.
Proof.
  induction a as [|x r IH]; [rewrite str_append_nil|rewrite str_append_cons].
  - change (split_on c (String c b)) with
      (if Ascii.eqb c c then EmptyString :: split_on c b
       else match split_on c b with
            | [] => [String c EmptyString]
            | w :: ws => String c w :: ws end).
    rewrite Ascii.eqb_refl. by exists "", [].
  - change (split_on c (String x (r ++ String c b))) with
      (if Ascii.eqb c x then EmptyString :: split_on c (r ++ String c b)
       else match split_on c (r ++ String c b) with
            | [] => [String x EmptyString]
            | w :: ws => String x w :: ws end).
    destruct IH as (w & pre & ->).
    destruct (Ascii.eqb c x); [by exists "", (w :: pre)|].
    by exists (String x w), pre.
Qed.

Lemma split_on_nonempty (c : ascii) (s : string) : split_on c s <> [].
Proof.
  destruct s as [|x r]; cbn [split_on]; [discriminate|].
  destruct (Ascii.eqb c x); [discriminate|]. by destruct (split_on c r).
Qed.

Lemma last_app_nonempty (l1 l2 : list string) (d : string) :
  l2 <> [] -> List.last (l1 ++ l2) d = List.last l2 d.
Proof.
  intros Hl2. induction l1 as [|x l1 IH]; [done|].
  rewrite <- app_comm_cons. simpl. rewrite IH.
  destruct (l1 ++ l2) eqn:E; [|done].
  apply app_eq_nil in E as [_ E]. contradiction.
Qed.

Lemma pop_split_after_sep (c : ascii) (a b : string) :
  pop (split_on c (a ++ String c b)) = pop (split_on c b).
Proof.
  unfold pop. destruct (split_on_app_sep c a b) as (w & pre & ->).
  apply last_app_nonempty, split_on_nonempty.
Qed.

(** X4. The filename recorded for an href is its last path segment in
    lower case: "/pages/Panama.html" and "panama.html" give the same key. *)
Theorem filename_of_last_segment (dir f : string) :
  index_of_char "/"%char f = None ->
  filename_of f = to_lower f /\ filename_of (dir ++ String "/"%char f) = to_lower f.
Proof.
  intros Hf. unfold filename_of.
  rewrite pop_split_after_sep, (split_on_no_sep _ _ Hf). split; reflexivity.
Qed.

Lemma filename_of_last_segment_witness :
  filename_of "/pages/Panama.html" = "panama.html".
Proof.
  exact (proj2 (filename_of_last_segment "/pages" "Panama.html" eq_refl)).
Defined.

(** X5. The current page's filename is the last segment of the path in
    lower case, and "index.html" when the path ends with '/'. *)
Theorem current_of_last_segment (p : page) (dir f : string) :
  pathname p = (dir ++ String "/"%char f)%string ->
  index_of_char "/"%char f = None ->
  current_of p = to_lower (if String.eqb f "" then "index.html" else f).
Proof.
  intros Hp Hf. unfold current_of. rewrite Hp, pop_split_after_sep, (split_on_no_sep _ _ Hf).
  reflexivity.
Qed.

Lemma current_of_last_segment_witness :
  current_of (with_store example_page ∅) = "panama.html" /\
  current_of (mk_page ∅ (fun _ => []) None "/site/") = "index.html".
Proof.
  split.
  - exact (current_of_last_segment (with_store example_page ∅) "/site" "panama.html"
             eq_refl eq_refl).
  - exact (current_of_last_segment (mk_page ∅ (fun _ => []) None "/site/") "/site" ""
             eq_refl eq_refl).
Defined.

(* ================================================================= *)
(** ** [trim] and [toLowerCase] on character lists *)
(* ================================================================= *)

Fixpoint drop_ws (l : list ascii) : list ascii :=
  match l with
  | [] => []
  | c :: r => if is_ws c then drop_ws r else l
  end.

Lemma trim_start_list (s : string) :
  list_ascii_of_string (trim_start s) = drop_ws (list_ascii_of_string s).
Proof. induction s as [|c r IH]; simpl; [done|]. by destruct (is_ws c). Qed.

Lemma rev_str_list (s acc : string) :
  list_ascii_of_string (rev_str s acc) = rev (list_ascii_of_string s) ++ list_ascii_of_string acc.
Proof.
  revert acc. induction s as [|c r IH]; intros acc; simpl; [done|].
  rewrite IH. simpl. by rewrite <- app_assoc.
Qed.

Lemma trim_list (s : string) :
  list_ascii_of_string (trim s) =
  rev (drop_ws (rev (drop_ws (list_ascii_of_string s)))).
Proof.
  unfold trim, trim_end.
  rewrite rev_str_list, trim_start_list, rev_str_list, trim_start_list. simpl.
  by rewrite !app_nil_r.
Qed.

Lemma drop_ws_head (l : list ascii) :
  drop_ws l = [] \/ exists c r, drop_ws l = c :: r /\ is_ws c = false.
Proof.
  induction l as [|c r IH]; simpl; [by left|].
  destruct (is_ws c) eqn:E; [exact IH|right; eauto].
Qed.

Lemma drop_ws_app (x y : list ascii) :
  drop_ws (x ++ y) = match drop_ws x with [] => drop_ws y | z => z ++ y end.
Proof.
  induction x as [|c r IH]; simpl; [done|].
  destruct (is_ws c); [exact IH|done].
Qed.

Lemma drop_ws_suffix (l : list ascii) (c : ascii) : In c (drop_ws l) -> In c l.
Proof.
  induction l as [|d r IH]; simpl; [done|].
  destruct (is_ws d); [intros H; right; by apply IH|done].
Qed.

(** A string whose first and last characters are not white space. *)
Definition no_edge_ws (s : string) : Prop :=
  forall c, hd_error (list_ascii_of_string s) = Some c \/
            hd_error (rev (list_ascii_of_string s)) = Some c -> is_ws c = false.

Lemma trim_no_edge_ws (s : string) : no_edge_ws (trim s).
Proof.
  unfold no_edge_ws. rewrite trim_list, rev_involutive.
  destruct (drop_ws_head (list_ascii_of_string s)) as [E|(c & r & E & Hc)]; rewrite E.
  - simpl. intros c [H|H]; discriminate.
  - intros d [H|H].
    + simpl in H. rewrite drop_ws_app in H. simpl in H. rewrite Hc in H.
      destruct (drop_ws (rev r)) as [|z zs].
      * simpl in H. injection H as <-. exact Hc.
      * simpl in H. rewrite rev_unit in H. simpl in H. injection H as <-. exact Hc.
    + destruct (drop_ws_head (rev (c :: r))) as [E'|(c' & r' & E' & Hc')]; rewrite E' in H;
        [discriminate|]. injection H as <-. exact Hc'.
Qed.

Lemma trim_chars (s : string) (c : ascii) :
  In c (list_ascii_of_string (trim s)) -> In c (list_ascii_of_string s).
Proof.
  rewrite trim_list. intros H. apply in_rev in H.
  apply drop_ws_suffix in H. apply in_rev in H. by apply drop_ws_suffix.
Qed.

Lemma lower_char_not_ws (c : ascii) : is_ws c = false -> is_ws (lower_char c) = false.
Proof.
  intros H. unfold lower_char.
  destruct ((65 <=? nat_of_ascii c) && (nat_of_ascii c <=? 90))%nat eqn:E; [|exact H].
  apply andb_true_iff in E as [E1 E2]. apply Nat.leb_le in E1, E2.
  unfold is_ws. rewrite Ascii.nat_ascii_embedding by lia.
  apply orb_false_iff. split.
  - apply Nat.eqb_neq. lia.
  - apply andb_false_iff. right. apply Nat.leb_gt. lia.
Qed.

Lemma lower_char_idem (c : ascii) : lower_char (lower_char c) = lower_char c.
Proof.
  unfold lower_char. cbv zeta.
  destruct ((65 <=? nat_of_ascii c) && (nat_of_ascii c <=? 90))%nat eqn:E.
  - apply andb_true_iff in E as [E1 E2]. apply Nat.leb_le in E1, E2.
    rewrite Ascii.nat_ascii_embedding by lia.
    replace ((65 <=? nat_of_ascii c + 32) && (nat_of_ascii c + 32 <=? 90))%nat with false;
      [reflexivity|].
    symmetry. apply andb_false_iff. right. apply Nat.leb_gt. lia.
  - by rewrite E.
Qed.

Lemma to_lower_list (s : string) :
  list_ascii_of_string (to_lower s) = map lower_char (list_ascii_of_string s).
Proof. induction s as [|c r IH]; simpl; [done|]. by rewrite IH. Qed.

Lemma to_lower_idem (s : string) : to_lower (to_lower s) = to_lower s.
Proof. induction s as [|c r IH]; simpl; [done|]. by rewrite lower_char_idem, IH. Qed.

Lemma to_lower_no_edge_ws (s : string) : no_edge_ws s -> no_edge_ws (to_lower s).
Proof.
  unfold no_edge_ws. rewrite to_lower_list, <- map_rev. intros H c Hc.
  destruct (list_ascii_of_string s) as [|a l] eqn:E; [destruct Hc as [Hc|Hc]; discriminate|].
  destruct Hc as [Hc|Hc].
  - simpl in Hc. injection Hc as <-. apply lower_char_not_ws, H. by left.
  - destruct (rev (a :: l)) as [|b l'] eqn:Er; [discriminate|].
    simpl in Hc. injection Hc as <-. apply lower_char_not_ws, H. right. reflexivity.
Qed.

Lemma to_lower_empty (s : string) : to_lower s = "" -> s = "".
Proof. by destruct s. Qed.

Lemma split_on_pieces (c : ascii) (s x : string) :
  In x (split_on c s) -> ~ In c (list_ascii_of_string x).
Proof.
  revert x. induction s as [|d r IH]; intros x; cbn [split_on].
  - intros [<-|[]]. simpl. tauto.
  - destruct (Ascii.eqb c d) eqn:E.
    + intros [<-|H]; [simpl; tauto|by apply IH].
    + apply Ascii.eqb_neq in E.
      destruct (split_on c r) as [|w ws] eqn:Hs.
      * intros [<-|[]]. simpl. intros [H|[]]. congruence.
      * intros [<-|H].
        -- simpl. intros [H|H]; [congruence|]. apply (IH w); [by left|exact H].
        -- apply IH. by right.
Qed.

Lemma lower_char_comma (c : ascii) : lower_char c = ","%char -> c = ","%char.
Proof.
  unfold lower_char. cbv zeta.
  destruct ((65 <=? nat_of_ascii c) && (nat_of_ascii c <=? 90))%nat eqn:E; [|done].
  apply andb_true_iff in E as [E1 E2]. apply Nat.leb_le in E1. apply Nat.leb_le in E2.
  intros H. apply (f_equal nat_of_ascii) in H.
  rewrite Ascii.nat_ascii_embedding in H by lia.
  change (nat_of_ascii ","%char) with 44%nat in H. lia.
Qed.

(** X6. Every entry of variant B's destination list is non-empty, in
    lower case, without white space at either end and without a comma. *)
Theorem destinationPages_B_normalized (p : page) (s : string) :
  In s (destinationPages_B p) ->
  s <> "" /\ to_lower s = s /\ no_edge_ws s /\ ~ In ","%char (list_ascii_of_string s).
Proof.
  unfold destinationPages_B. intros H.
  apply filter_In in H as [H Hne]. apply negb_true_iff, String.eqb_neq in Hne.
  apply in_map_iff in H as (x & <- & Hx).
  split; [exact Hne|]. split; [apply to_lower_idem|]. split.
  - apply to_lower_no_edge_ws, trim_no_edge_ws.
  - rewrite to_lower_list. intros Hc. apply in_map_iff in Hc as (c & Hc & Hin).
    apply lower_char_comma in Hc as ->.
    apply trim_chars in Hin. exact (split_on_pieces _ _ _ Hx Hin).
Qed.

Lemma destinationPages_B_normalized_witness :
  In "panama.html" (destinationPages_B
       (mk_page ∅ (fun _ => []) (Some [("data-destinations", " CostaRica.html , Panama.html,,")]) "/")) /\
  to_lower "panama.html" = "panama.html".
Proof.
  assert (H : In "panama.html" (destinationPages_B
       (mk_page ∅ (fun _ => []) (Some [("data-destinations", " CostaRica.html , Panama.html,,")]) "/")))
    by (vm_compute; tauto).
  split; [exact H|].
  exact (proj1 (proj2 (destinationPages_B_normalized _ _ H))).
Defined.

Lemma env_key_trimmed (env : env_t) (x k : string) :
  env_key env x = Some k -> k <> "" /\ no_edge_ws k.
Proof.
  unfold env_key. destruct (env x) as [v|]; [|discriminate].
  destruct (String.eqb v ""); [discriminate|].
  destruct (String.eqb (trim v) "") eqn:E; [discriminate|].
  intros [= <-]. apply String.eqb_neq in E. split; [exact E|apply trim_no_edge_ws].
Qed.

Lemma tryReadFileSync_trimmed (fs : fs_t) (p k : string) :
  tryReadFileSync fs p = Some k -> k <> "" /\ no_edge_ws k.
Proof.
  unfold tryReadFileSync. destruct (fs p) as [c|]; [|discriminate]. cbv zeta.
  destruct (String.eqb (trim c) "") eqn:E; [discriminate|].
  intros [= <-]. apply String.eqb_neq in E. split; [exact E|apply trim_no_edge_ws].
Qed.

(** X7. A key returned by [getApiKey] is non-empty and has no white
    space at either end, whichever source it came from. *)
Theorem getApiKey_trimmed (env : env_t) (fs : fs_t) (k : string) :
  getApiKey env fs = Some k -> k <> "" /\ no_edge_ws k.
Proof.
  unfold getApiKey.
  destruct (env_key env "OPENAI_API_KEY") eqn:E1; [intros [= <-]; by eapply env_key_trimmed|].
  destruct (env_key env "OPEN_AI_KEY") eqn:E2; [intros [= <-]; by eapply env_key_trimmed|].
  destruct (match env "OPEN_AI_KEY_FILE" with
            | Some p => if String.eqb p "" then None else tryReadFileSync fs p
            | None => None end) eqn:E3.
  { intros [= <-]. destruct (env "OPEN_AI_KEY_FILE") as [p|]; [|discriminate].
    destruct (String.eqb p ""); [discriminate|]. by eapply tryReadFileSync_trimmed. }
  destruct (tryReadFileSync fs "./OPEN_AI_KEY") eqn:E4;
    [intros [= <-]; by eapply tryReadFileSync_trimmed|].
  destruct (tryReadFileSync fs "/run/secrets/OPEN_AI_KEY") eqn:E5;
    [intros [= <-]; by eapply tryReadFileSync_trimmed|].
  discriminate.
Qed.

Lemma getApiKey_trimmed_witness :
  let env := fun x => if String.eqb x "OPEN_AI_KEY" then Some "  sk-123 " else None in
  getApiKey env (fun _ => None) = Some "sk-123" /\ "sk-123" <> "".
Proof.
  intros env. assert (H : getApiKey env (fun _ => None) = Some "sk-123") by reflexivity.
  split; [exact H|]. exact (proj1 (getApiKey_trimmed env (fun _ => None) "sk-123" H)).
Defined.

(** *** The handler's outcomes *)

Lemma respond_assistant_status json_parse js_to_string (c : jval) :
  status (respond_assistant json_parse js_to_string c) = 200%Z.
Proof. unfold respond_assistant. by destruct (parse_attempt json_parse js_to_string c). Qed.

Lemma relay_status json_parse json_stringify js_to_string (w : world) (key : string) (a : jval) :
  let s := status (relay json_parse json_stringify js_to_string w key a) in
  s = 200%Z \/ s = 500%Z \/ s = 502%Z.
Proof.
  cbv zeta. unfold relay.
  destruct (upstream w _) as [|ok txt js]; [simpl; tauto|].
  destruct ok; simpl.
  - destruct js as [j|]; [|simpl; tauto].
    destruct (assistant_content j) as [c|]; [|simpl; tauto].
    left. apply respond_assistant_status.
  - destruct txt; simpl; tauto.
Qed.

Lemma fallback_status (a : jval) (resp : response) :
  fallback a = Ok resp -> status resp = 200%Z.
Proof. intros H. destruct (fallback_shape a resp H) as (d & r & pick & _ & _ & _ & ->). done. Qed.

(** X9. Whenever the handler answers (rather than throwing), the status
    is one of 200, 405, 500 and 502. *)
Theorem handle_statuses json_parse json_stringify js_to_string (w : world) (r : request)
    (resp : response) :
  handle json_parse json_stringify js_to_string w r = Ok resp ->
  status resp = 200%Z \/ status resp = 405%Z \/ status resp = 500%Z \/ status resp = 502%Z.
Proof.
  unfold handle. destruct (negb (String.eqb (method r) "POST")).
  { intros [= <-]. simpl. tauto. }
  unfold proceed. destruct (get (request_body json_parse r) "answers") as [a|]; simpl; [|discriminate].
  destruct (getApiKey (env w) (fs w)) as [key|].
  - intros [= <-]. destruct (relay_status json_parse json_stringify js_to_string w key
                               (js_or a (JObj []))) as [H|[H|H]]; tauto.
  - intros H. left. exact (fallback_status _ _ H).
Qed.

Lemma handle_statuses_witness :
  handle (fun _ => None) (fun _ => "") (fun _ => "") (mk_world (fun _ => None) (fun _ => None)
           (fun _ => FetchThrows)) (mk_request "POST" (JObj [("answers", JObj [])]) None)
    = Ok (mk_response 200 (BJson (fallback_obj "Costa Rica"))) /\
  status (mk_response 200 (BJson (fallback_obj "Costa Rica"))) = 200%Z.
Proof.
  assert (H : handle (fun _ => None) (fun _ => "") (fun _ => "")
           (mk_world (fun _ => None) (fun _ => None) (fun _ => FetchThrows))
           (mk_request "POST" (JObj [("answers", JObj [])]) None)
         = Ok (mk_response 200 (BJson (fallback_obj "Costa Rica")))) by reflexivity.
  split; [exact H|].
  destruct (handle_statuses _ _ _ _ _ _ H) as [S|[S|[S|S]]]; [exact S|discriminate..].
Defined.

(** X10. Once a credential resolves, nothing the upstream service does
    makes the handler throw: a POST throws exactly when its body value is
    [null] or [undefined] (the read of [body.answers] then fails), and
    any other request is answered. *)
Theorem handle_with_key_throws json_parse json_stringify js_to_string (w : world)
    (r : request) (key : string) :
  getApiKey (env w) (fs w) = Some key ->
  (handle json_parse json_stringify js_to_string w r = Throw <->
   method r = "POST" /\ nullish (request_body json_parse r) = true).
Proof.
  intros Hk. unfold handle.
  destruct (String.eqb_spec (method r) "POST") as [Hm|Hm]; simpl.
  - unfold proceed.
    destruct (nullish (request_body json_parse r)) eqn:Hn.
    + destruct (request_body json_parse r); try discriminate; simpl; tauto.
    + destruct (get_not_nullish _ "answers" Hn) as [a Ha]. rewrite Ha. simpl. rewrite Hk.
      split; [discriminate|intros [_ H]; discriminate].
  - split; [discriminate|intros [H _]; contradiction].
Qed.

Lemma handle_with_key_throws_witness :
  let w := mk_world (fun x => if String.eqb x "OPENAI_API_KEY" then Some "k" else None)
             (fun _ => None) (fun _ => FetchThrows) in
  let jp := fun s => if String.eqb s "null" then Some JNull else None in
  getApiKey (env w) (fs w) = Some "k" /\
  handle jp (fun _ => "") (fun _ => "") w (mk_request "POST" JUndef (Some "null")) = Throw.
Proof.
  intros w jp. assert (Hk : getApiKey (env w) (fs w) = Some "k") by reflexivity.
  split; [exact Hk|].
  apply (proj2 (handle_with_key_throws jp (fun _ => "") (fun _ => "") w
                  (mk_request "POST" JUndef (Some "null")) "k" Hk)).
  split; reflexivity.
Defined.

(** X11. Without a credential the handler never contacts the upstream
    service: its outcome does not depend on the upstream at all. *)
Theorem handle_no_key_offline json_parse json_stringify js_to_string (w w' : world)
    (r : request) :
  env w = env w' -> fs w = fs w' -> getApiKey (env w) (fs w) = None ->
  handle json_parse json_stringify js_to_string w r =
    handle json_parse json_stringify js_to_string w' r.
Proof.
  intros He Hf Hk. unfold handle, proceed.
  destruct (negb _); [reflexivity|].
  destruct (get (request_body json_parse r) "answers"); simpl; [|reflexivity].
  rewrite <- He, <- Hf, Hk. reflexivity.
Qed.

Lemma handle_no_key_offline_witness :
  let w := mk_world (fun _ => None) (fun _ => None) (fun _ => FetchThrows) in
  let w' := mk_world (fun _ => None) (fun _ => None)
              (fun _ => FetchResp true None (Some (JObj []))) in
  handle (fun _ => None) (fun _ => "") (fun _ => "") w (mk_request "POST" (JObj [("a", JNull)]) None) =
  handle (fun _ => None) (fun _ => "") (fun _ => "") w' (mk_request "POST" (JObj [("a", JNull)]) None).
Proof.
  intros w w'. apply handle_no_key_offline; reflexivity.
Defined.

(** X12. The exact condition under which the no-credential fallback
    throws: the answers value is [null]/[undefined], or neither "panama"
    nor "belize" is among the normalised destinations and the
    relocation type is truthy but neither a string nor an array (so
    [.includes] is not a function on it). *)
Theorem fallback_throws_iff (a : jval) :
  fallback a = Throw <->
  nullish a = true \/
  exists d r, get a "destinations" = Ok d /\ get a "relocationType" = Ok r /\
    arr_includes (norm_dests d) (JStr "panama") = false /\
    arr_includes (norm_dests d) (JStr "belize") = false /\
    truthy r = true /\ (forall s, r <> JStr s) /\ (forall l, r <> JArr l).
Proof.
  destruct (nullish a) eqn:Hn.
  { split; [tauto|intros _]. destruct a; try discriminate; reflexivity. }
  destruct (get_not_nullish a "destinations" Hn) as [d Hd].
  destruct (get_not_nullish a "relocationType" Hn) as [r Hr].
  unfold fallback. rewrite Hd, Hr. cbn [bind]. unfold fallback_pick.
  split.
  - intros H. right. exists d, r. do 2 (split; [reflexivity|]).
    destruct (arr_includes (norm_dests d) (JStr "panama")); [discriminate|].
    destruct (arr_includes (norm_dests d) (JStr "belize")); [discriminate|].
    do 2 (split; [reflexivity|]).
    unfold js_or in H. destruct (truthy r) eqn:Ht; [|discriminate].
    split; [reflexivity|].
    destruct r; cbn in Ht, H; try rewrite Ht in H; cbn in H; try discriminate H;
      split; intros x Hx; discriminate Hx.
  - intros [H|(d' & r' & Hd' & Hr' & Hp & Hb & Ht & Hs & Hl)]; [congruence|].
    injection Hd' as <-. injection Hr' as <-.
    rewrite Hp, Hb. unfold js_or. rewrite Ht, Ht.
    destruct r; simpl; try reflexivity.
    + exfalso. eapply Hs. reflexivity.
    + exfalso. eapply Hl. reflexivity.
Qed.

(** X13. When the upstream answers successfully and the assistant
    content is truthy but neither a string nor an array (an object, a
    number, [true]), [indexOf] is not a function on it; the thrown
    error is caught and the reply is 200 with { text: <the content> }. *)
Theorem relay_nonstring_content json_parse json_stringify js_to_string (w : world)
    (key : string) (answers : jval) (txt : option string) (j c : jval) :
  upstream w (fetch_of json_stringify key answers) = FetchResp true txt (Some j) ->
  assistant_content j = Ok c ->
  truthy c = true -> (forall s, c <> JStr s) -> (forall l, c <> JArr l) ->
  relay json_parse json_stringify js_to_string w key answers =
    mk_response 200 (BJson (JObj [("text", c)])).
Proof.
  intros Hu Hc Ht Hs Hl. rewrite (relay_ok_content _ _ _ _ _ _ _ _ _ Hu Hc).
  unfold js_or. rewrite Ht. unfold respond_assistant, parse_attempt.
  destruct c; try reflexivity.
  - exfalso. eapply Hs. reflexivity.
  - exfalso. eapply Hl. reflexivity.
Qed.

Lemma relay_nonstring_content_witness :
  let body := JObj [("choices", JArr [JObj [("message", JObj [("content", JNum 7)])]])] in
  let w := mk_world (fun _ => None) (fun _ => None) (fun _ => FetchResp true None (Some body)) in
  relay (fun _ => None) (fun _ => "") (fun _ => "") w "k" (JObj []) =
    mk_response 200 (BJson (JObj [("text", JNum 7)])).
Proof.
  intros body w.
  apply (relay_nonstring_content (fun _ => None) (fun _ => "") (fun _ => "") w "k" (JObj [])
           None body (JNum 7)); [reflexivity|reflexivity|reflexivity| |];
    intros x Hx; discriminate Hx.
Defined.

(** *** The filenames recorded by the two variants *)

Lemma amap_has_keys (k : string) (m : amap) : amap_has k m = str_mem k (map fst m).
Proof.
  unfold amap_has, str_mem. induction m as [|[k' v'] r IH]; simpl; [reflexivity|].
  destruct (String.eqb k k'); [reflexivity|exact IH].
Qed.

Lemma amap_set_keys (k : string) (v : nat) (m : amap) :
  map fst (amap_set k v m) = if amap_has k m then map fst m else map fst m ++ [k].
Proof.
  rewrite amap_has_keys. induction m as [|[k' v'] r IH]; simpl; [reflexivity|].
  unfold str_mem in *. simpl.
  destruct (String.eqb k k') eqn:E; simpl; [reflexivity|].
  rewrite IH. by destruct (existsb (String.eqb k) (map fst r)).
Qed.

Lemma record_A_keys fn id m :
  map fst (record_A fn id m) = if amap_has fn m then map fst m else map fst m ++ [fn].
Proof. apply amap_set_keys. Qed.

Lemma record_B_keys fn id m :
  map fst (record_B fn id m) = if amap_has fn m then map fst m else map fst m ++ [fn].
Proof.
  unfold record_B. destruct (amap_has fn m) eqn:E; [reflexivity|].
  rewrite amap_set_keys, E. reflexivity.
Qed.

Lemma keys_step_nodup (fn : string) (m : amap) :
  NoDup (map fst m) ->
  NoDup (if amap_has fn m then map fst m else map fst m ++ [fn]).
Proof.
  intros H. rewrite amap_has_keys.
  destruct (str_mem fn (map fst m)) eqn:E; [exact H|].
  apply NoDup_app. split; [exact H|]. split; [|apply NoDup_singleton].
  intros x Hx Hc. apply list_elem_of_singleton in Hc as ->.
  apply list_elem_of_In, (proj2 (str_mem_In _ _)) in Hx. congruence.
Qed.

(** X14. Over the same scanned anchors, variant A's [anchors] map and
    variant B's hold the same filenames in the same order, each filename
    once: [Map.set] on a present key keeps its position, so the two
    recording rules differ only in which anchor a filename maps to. *)
Theorem collect_same_keys (st : gmap nat elem) (ids : list nat) :
  map fst (collect record_A st ids) = map fst (collect record_B st ids) /\
  NoDup (map fst (collect record_B st ids)).
Proof.
  unfold collect.
  assert (Hgen : forall mA mB, map fst mA = map fst mB -> NoDup (map fst mB) ->
    let f := fun rec => fun m id => match key_of st id with
                                    | Some fn => rec fn id m | None => m end in
    map fst (fold_left (f record_A) ids mA) = map fst (fold_left (f record_B) ids mB) /\
    NoDup (map fst (fold_left (f record_B) ids mB))).
  { induction ids as [|id r IH]; intros mA mB Hk Hn f; simpl; [tauto|].
    apply IH.
    - unfold f. destruct (key_of st id) as [fn|]; [|exact Hk].
      rewrite record_A_keys, record_B_keys, !amap_has_keys, Hk. reflexivity.
    - unfold f. destruct (key_of st id) as [fn|]; [|exact Hn].
      rewrite record_B_keys. by apply keys_step_nodup. }
  apply (Hgen [] []); [reflexivity|constructor].
Qed.

(** *** Variant A keeps the last anchor found for a filename *)

Lemma first_with_app (st : gmap nat elem) (fn : string) (l1 l2 : list nat) :
  first_with st fn (l1 ++ l2) =
    match first_with st fn l1 with Some v => Some v | None => first_with st fn l2 end.
Proof.
  induction l1 as [|id r IH]; simpl; [reflexivity|].
  destruct (decide (key_of st id = Some fn)); [reflexivity|exact IH].
Qed.

Lemma amap_get_record_A_step (st : gmap nat elem) (fn : string) (id : nat) (m : amap) :
  amap_get fn (match key_of st id with Some k => record_A k id m | None => m end) =
    if decide (key_of st id = Some fn) then Some id else amap_get fn m.
Proof.
  destruct (key_of st id) as [k|] eqn:Hk.
  - unfold record_A. rewrite amap_get_set.
    destruct (String.eqb_spec fn k) as [->|Hne].
    + by rewrite decide_True.
    + rewrite decide_False; [reflexivity|]. intros [= ->]. congruence.
  - rewrite decide_False; [reflexivity|discriminate].
Qed.

Lemma collect_A_last (st : gmap nat elem) (ids : list nat) (fn : string) (m : amap) :
  amap_get fn (fold_left (fun m id => match key_of st id with
                                      | Some fn => record_A fn id m
                                      | None => m end) ids m) =
  match first_with st fn (rev ids) with Some v => Some v | None => amap_get fn m end.
Proof.
  revert m. induction ids as [|id ids IH]; intros m; simpl; [reflexivity|].
  rewrite IH, amap_get_record_A_step, first_with_app. simpl.
  destruct (first_with st fn (rev ids)); [reflexivity|].
  by destruct (decide (key_of st id = Some fn)).
Qed.

(** X15. Variant A records, for each filename, the LAST qualifying
    anchor of the scan ([anchors.set] overwrites): the anchor it keeps
    for [fn] is the first one met when the scan is read backwards. *)
Theorem collect_A_last_occurrence (p : page) (fn : string) :
  amap_get fn (collect_A p) = first_with (store p) fn (rev (scan p selectors_A)).
Proof.
  unfold collect_A, collect. rewrite collect_A_last.
  by destruct (first_with (store p) fn (rev (scan p selectors_A))).
Qed.
